(** * deploy-watcher: a shallow embedding of [watcher.py]

    The four components of the monitor -- [HealthChecker], [Notifier],
    [RollbackEngine] and the orchestrating [DeployWatcher] -- are translated
    function by function.  Python objects keep their mutable fields in one
    [Store]; calls that may raise live in the monad [M], in which
    [try_except] is the source's [try: ... except ...:].  Everything the
    program reads from outside (HTTP replies, clocks, the rollback
    subprocess, what the console makes of markup) is an explicit
    environment argument.

    Clock readings ([time.time()], [time.monotonic()]) and the durations
    computed from them are integers counted in clock ticks. *)

From stdpp Require Import base strings list gmap sorting.
From Stdlib Require Import ZArith Lia.

Local Open Scope string_scope.
Local Open Scope list_scope.
Local Open Scope Z_scope.

(** ** Data model *)

Inductive ServiceStatus := HEALTHY | DEGRADED | DOWN | UNKNOWN.

Global Instance ServiceStatus_eq_dec : EqDecision ServiceStatus.
Proof. solve_decision. Defined.

Record CheckResult := mkCheckResult {
  service_name : string;
  status : ServiceStatus;
  response_time_ms : Z;
  status_code : option Z;
  error : option string;
  timestamp : Z
}.

Record ServiceConfig := mkServiceConfig {
  name : string;
  url : string;
  method : string;
  expected_status : Z;
  expected_body : option string;
  headers : list (string * string)
}.

(** ** Exceptions and the store *)

(** The exceptions the program distinguishes: [httpx.TimeoutException] and
    every other subclass of [Exception]; [str e] is Python's [str(e)]. *)
Inductive exn :=
| TimeoutException (msg : string)
| OtherException (msg : string).

Definition str (e : exn) : string :=
  match e with TimeoutException m => m | OtherException m => m end.

Inductive Result (A : Type) :=
| Return (a : A)
| Raise (e : exn).
Arguments Return {A} a.
Arguments Raise {A} e.

(** What the program does to the outside world, in the order it does it. *)
Inductive Event :=
| CallNotify (message : string) (results : list CheckResult)
| Post (sink_url : string) (message : string) (results : list CheckResult)
| CallExecute
| Spawn (command : string).

Record Store := mkStore {
  failure_counts : gmap string Z;   (* DeployWatcher.failure_counts *)
  _last_rollback : option Z;        (* RollbackEngine._last_rollback *)
  log : list Event
}.

Definition set_failure_counts (f : gmap string Z) (st : Store) : Store :=
  mkStore f (_last_rollback st) (log st).
Definition set_last_rollback (t : option Z) (st : Store) : Store :=
  mkStore (failure_counts st) t (log st).
Definition add_log (evs : list Event) (st : Store) : Store :=
  mkStore (failure_counts st) (_last_rollback st) (log st ++ evs).

(** A computation reads and writes the store and returns or raises; the
    store written before a [Raise] is kept, as in Python. *)
Definition M (A : Type) : Type := Store → Result A * Store.

Definition ret {A} (a : A) : M A := λ st, (Return a, st).
Definition raise {A} (e : exn) : M A := λ st, (Raise e, st).
Definition bind {A B} (m : M A) (k : A → M B) : M B :=
  λ st, match m st with
        | (Return a, st') => k a st'
        | (Raise e, st') => (Raise e, st')
        end.
Definition try_except {A} (body : M A) (handler : exn → M A) : M A :=
  λ st, match body st with
        | (Return a, st') => (Return a, st')
        | (Raise e, st') => handler e st'
        end.
Definition lift {A} (r : Result A) : M A := λ st, (r, st).
Definition get : M Store := λ st, (Return st, st).
Definition modify (f : Store → Store) : M unit := λ st, (Return tt, f st).
Definition emit (ev : Event) : M unit := modify (add_log [ev]).

Notation "x <- m ;; k" := (bind m (λ x, k))
  (at level 100, m at next level, right associativity).
Notation "m ;;; k" := (bind m (λ _, k))
  (at level 100, right associativity).

(** ** Python strings *)

(** [needle in hay] for two [str]. *)
Fixpoint str_in (needle hay : string) : bool :=
  String.prefix needle hay ||
  match hay with
  | EmptyString => false
  | String _ rest => str_in needle rest
  end.

(** Truth value of a [str]. *)
Definition str_truthy (s : string) : bool :=
  match s with EmptyString => false | _ => true end.

(** ** asyncio.gather *)

(** [asyncio.gather] belongs to Python's library, not to the program; it is
    modelled as documented: the awaitables run concurrently, each resolves
    at an instant of its own, and the awaiter receives their results in the
    order of the arguments.  Here an awaitable runs as one step at the
    instant it resolves. *)

(** An awaitable handed to [asyncio.gather], with the instant at which it
    resolves. *)
Record Task (A : Type) := mkTask {
  done_at : Z;
  body : M A
}.
Arguments mkTask {A} done_at body.
Arguments done_at {A} t.
Arguments body {A} t.

(** A position paired with an instant comes no later than another. *)
Definition earlier (x y : nat * Z) : Prop := snd x ≤ snd y.

Global Instance earlier_dec x y : Decision (earlier x y).
Proof. unfold earlier. apply _. Defined.

(** Positions of the awaitables, earliest resolution first. *)
Definition completion_order {A} (aws : list (Task A)) : list nat :=
  fst <$> merge_sort earlier (imap (λ i t, (i, done_at t)) aws).

(** The awaitables resolve in [order]; each leaves its outcome in the slot
    of its own position.  Without [return_exceptions] the first exception
    goes to the awaiter at once. *)
Fixpoint gather_loop {A} (return_exceptions : bool) (aws : list (Task A))
    (order : list nat) (slots : list (option (Result A)))
    : M (list (option (Result A))) :=
  match order with
  | [] => ret slots
  | i :: rest =>
      match aws !! i with
      | None => gather_loop return_exceptions aws rest slots
      | Some t =>
          λ st,
            match body t st with
            | (Return a, st') =>
                gather_loop return_exceptions aws rest
                  (<[i := Some (Return a)]> slots) st'
            | (Raise e, st') =>
                if return_exceptions
                then gather_loop return_exceptions aws rest
                       (<[i := Some (Raise e)]> slots) st'
                else (Raise e, st')
            end
      end
  end.

(** Reading the slots in argument order; a slot never filled is
    [InvalidStateError]. *)
Fixpoint outcomes {A} (slots : list (option (Result A)))
    : M (list (Result A)) :=
  match slots with
  | [] => ret []
  | None :: _ => raise (OtherException "Result is not set.")
  | Some r :: rest => rs <- outcomes rest;; ret (r :: rs)
  end.

Fixpoint values {A} (rs : list (Result A)) : M (list A) :=
  match rs with
  | [] => ret []
  | Return a :: rest => vs <- values rest;; ret (a :: vs)
  | Raise e :: _ => raise e
  end.

(** [asyncio.gather( *aws, return_exceptions=True)] *)
Definition gather_return_exceptions {A} (aws : list (Task A))
    : M (list (Result A)) :=
  slots <- gather_loop true aws (completion_order aws)
             (replicate (length aws) None);;
  outcomes slots.

(** [asyncio.gather( *aws)] *)
Definition gather {A} (aws : list (Task A)) : M (list A) :=
  slots <- gather_loop false aws (completion_order aws)
             (replicate (length aws) None);;
  rs <- outcomes slots;;
  values rs.

(** ** HealthChecker *)

Record Response := mkResponse {
  resp_status_code : Z;   (* response.status_code *)
  text : string           (* response.text *)
}.

(** What one call of [check] meets: the clock before the request, the
    outcome of [client.request], the clock when that outcome is known and
    the [datetime.utcnow()] stamped on the result. *)
Record ProbeEnv := mkProbeEnv {
  monotonic_start : Z;
  request : string → string → list (string * string) → Result Response;
  monotonic_end : Z;
  utcnow : Z
}.

Definition check (env : ProbeEnv) (service : ServiceConfig) : M CheckResult :=
  let start := monotonic_start env in
  try_except
    (response <- lift (request env (method service) (url service)
                         (headers service));;
     let elapsed := (monotonic_end env - start) * 1000 in
     let status := HEALTHY in
     let status :=
       if bool_decide (resp_status_code response ≠ expected_status service)
       then DEGRADED else status in
     let status :=
       match expected_body service with
       | Some expected =>
           if str_truthy expected && negb (str_in expected (text response))
           then DEGRADED else status
       | None => status
       end in
     ret (mkCheckResult (name service) status elapsed
            (Some (resp_status_code response)) None (utcnow env)))
    (λ e,
       match e with
       | TimeoutException _ =>
           let elapsed := (monotonic_end env - start) * 1000 in
           ret (mkCheckResult (name service) DOWN elapsed None
                  (Some "Timeout") (utcnow env))
       | OtherException _ =>
           let elapsed := (monotonic_end env - start) * 1000 in
           ret (mkCheckResult (name service) DOWN elapsed None
                  (Some (str e)) (utcnow env))
       end).

(** ** Notifier *)

Record Notifier := mkNotifier {
  slack_url : string;
  webhook_url : string
}.

(** What one call of [notify] meets: the outcome of each [client.post] and
    the instant it is known. *)
Record SinkEnv := mkSinkEnv {
  slack_post : Result unit;
  slack_done : Z;
  webhook_post : Result unit;
  webhook_done : Z
}.

(** What a call of [notify] evaluates to. *)
Inductive NotifyValue :=
| PyNone
| PyList (items : list (Result unit)).

Definition _send_slack (self : Notifier) (env : SinkEnv) (message : string)
    (results : list CheckResult) : M unit :=
  emit (Post (slack_url self) message results);;;
  lift (slack_post env).

Definition _send_webhook (self : Notifier) (env : SinkEnv) (message : string)
    (results : list CheckResult) : M unit :=
  emit (Post (webhook_url self) message results);;;
  lift (webhook_post env).

Definition notify (self : Notifier) (env : SinkEnv) (message : string)
    (results : list CheckResult) : M NotifyValue :=
  let tasks : list (Task unit) := [] in
  let tasks :=
    if str_truthy (slack_url self)
    then tasks ++ [mkTask (slack_done env)
                     (_send_slack self env message results)]
    else tasks in
  let tasks :=
    if str_truthy (webhook_url self)
    then tasks ++ [mkTask (webhook_done env)
                     (_send_webhook self env message results)]
    else tasks in
  match tasks with
  | [] => ret PyNone
  | _ => _ <- gather_return_exceptions tasks;; ret PyNone
  end.

(** ** RollbackEngine *)

Record RollbackEngine := mkRollbackEngine {
  enabled : bool;
  command : string;
  cooldown : Z
}.

Record Process := mkProcess {
  communicate : Result (string * string);   (* (stdout, stderr) *)
  returncode : Z
}.

(** What one call of [execute] meets: [time.time()] at the cooldown test,
    the outcome of launching the command, [time.time()] once the wait is
    over. *)
Record ShellEnv := mkShellEnv {
  time_check : Z;
  create_subprocess_shell : string → Result Process;
  time_done : Z
}.

(** The test [if self._last_rollback: ... if elapsed < self.cooldown]. *)
Definition in_cooldown (self : RollbackEngine) (env : ShellEnv) (st : Store)
    : bool :=
  match _last_rollback st with
  | Some last =>
      if bool_decide (last ≠ 0)
      then
        let elapsed := time_check env - last in
        bool_decide (elapsed < cooldown self)
      else false
  | None => false
  end.

Definition execute (self : RollbackEngine) (env : ShellEnv) : M bool :=
  if negb (enabled self) || negb (str_truthy (command self)) then ret false
  else
    st <- get;;
    if in_cooldown self env st then ret false
    else
      try_except
        (proc <- lift (create_subprocess_shell env (command self));;
         emit (Spawn (command self));;;
         _ <- lift (communicate proc);;
         modify (set_last_rollback (Some (time_done env)));;;
         if bool_decide (returncode proc = 0) then ret true else ret false)
        (λ e, ret false).

(** ** DeployWatcher *)

Record DeployWatcher := mkDeployWatcher {
  services : list ServiceConfig;
  notifier : Notifier;
  rollback : RollbackEngine;
  threshold : Z
}.

(** What one cycle meets: the probe of the service at each position, for
    the result handled at each position the sinks and the shell, and what
    the console makes of a text that holds an opening bracket. *)
Record CycleEnv := mkCycleEnv {
  probe : nat → ProbeEnv;
  sinks : nat → SinkEnv;
  shell : nat → ShellEnv;
  markup : string → Result unit
}.

Definition check_all (self : DeployWatcher) (env : CycleEnv)
    : M (list CheckResult) :=
  let tasks :=
    imap (λ i svc, mkTask (monotonic_end (probe env i))
                     (check (probe env i) svc))
         (services self) in
  gather tasks.

(** [d[key]] and [d.get(key, 0)] on [failure_counts]. *)
Definition getitem (key : string) : M Z :=
  st <- get;;
  match failure_counts st !! key with
  | Some v => ret v
  | None => raise (OtherException "KeyError")
  end.
Definition get_or_0 (key : string) : M Z :=
  st <- get;; ret (default 0 (failure_counts st !! key)).
Definition setitem (key : string) (v : Z) : M unit :=
  modify (λ st, set_failure_counts (<[key := v]> (failure_counts st)) st).

(** [for x in l: body], the position of [x] counted from [i]. *)
Fixpoint for_each {A} (i : nat) (l : list A) (body : nat → A → M unit)
    : M unit :=
  match l with
  | [] => ret tt
  | x :: rest => body i x;;; for_each (S i) rest body
  end.

(** One row of the table of [_print_results].  The time and the status
    code are shown in digits. *)
Record Row := mkRow {
  cell_service : string;
  cell_status : string;
  cell_time : Z;            (* f"{r.response_time_ms:.1f}ms" *)
  cell_code : option Z;     (* str(r.status_code or "-"); [None] shows "-" *)
  cell_error : string
}.

Definition status_style (status : ServiceStatus) : string :=
  match status with
  | HEALTHY => "[green]HEALTHY[/]"
  | DEGRADED => "[yellow]DEGRADED[/]"
  | DOWN => "[red]DOWN[/]"
  | UNKNOWN => "[dim]UNKNOWN[/]"
  end.

Definition add_row (r : CheckResult) : Row :=
  mkRow (service_name r)
    (status_style (status r))
    (response_time_ms r)
    (match status_code r with
     | Some code => if bool_decide (code ≠ 0) then Some code else None
     | None => None
     end)
    (match error r with
     | Some e => if str_truthy e then e else "-"
     | None => "-"
     end).

(** [console.print] belongs to the rich library, not to the program; it is
    modelled from its source: every text cell is rendered as console
    markup, column after column and row after row within a column; a text
    without an opening bracket is plain text and always renders; on any
    other text the renderer does what [markup] says, which for a closing
    tag that matches no open tag is to raise [MarkupError]. *)
Definition render_markup (env : CycleEnv) (cell : string) : Result unit :=
  if negb (str_in "[" cell) then Return tt else markup env cell.

Fixpoint render_cells (env : CycleEnv) (cells : list string) : Result unit :=
  match cells with
  | [] => Return tt
  | cell :: rest =>
      match render_markup env cell with
      | Return _ => render_cells env rest
      | Raise e => Raise e
      end
  end.

Definition console_print (env : CycleEnv) (table : list Row) : Result unit :=
  render_cells env
    ((cell_service <$> table) ++ (cell_status <$> table) ++
     (cell_error <$> table)).

Definition _print_results (env : CycleEnv) (results : list CheckResult)
    : M unit :=
  let table := add_row <$> results in
  lift (console_print env table).

Definition down_message (service : string) : string :=
  String.append "Service DOWN: " service.

Definition handle_result (self : DeployWatcher) (env : CycleEnv)
    (results : list CheckResult) (i : nat) (result : CheckResult) : M unit :=
  if bool_decide (status result = DOWN) then
    old <- get_or_0 (service_name result);;
    setitem (service_name result) (old + 1);;;
    count <- getitem (service_name result);;
    if bool_decide (threshold self ≤ count) then
      emit (CallNotify (down_message (service_name result)) results);;;
      _ <- notify (notifier self) (sinks env i)
             (down_message (service_name result)) results;;
      emit CallExecute;;;
      _ <- execute (rollback self) (shell env i);;
      ret tt
    else ret tt
  else
    setitem (service_name result) 0.

Definition run_once (self : DeployWatcher) (env : CycleEnv) (verbose : bool)
    : M (list CheckResult) :=
  results <- check_all self env;;
  (if verbose then _print_results env results else ret tt);;;
  for_each 0 results (handle_result self env results);;;
  ret results.

(** The first [n] iterations of the loop of [run], cycle [k] first. *)
Fixpoint run_cycles (self : DeployWatcher) (world : nat → CycleEnv)
    (verbose : bool) (k n : nat) : M unit :=
  match n with
  | O => ret tt
  | S n' =>
      _ <- run_once self (world k) verbose;;
      run_cycles self world verbose (S k) n'
  end.

(** ** main *)

Inductive Exit :=
| SysExit (code : Z)   (* sys.exit(code) *)
| Returned             (* main returns *)
| Looping.             (* asyncio.run(watcher.run(...)) *)

Definition main (config_exists : bool) (watcher : DeployWatcher)
    (env : CycleEnv) (verbose once dry_run : bool) : M Exit :=
  if negb config_exists then ret (SysExit 1)
  else if dry_run then ret Returned
  else if once then
    results <- run_once watcher env true;;
    let failed := filter (λ r, status r ≠ HEALTHY) results in
    ret (SysExit (match failed with [] => 0 | _ => 1 end))
  else ret Looping.

(** ** The configuration *)

(** The mapping loaded from the YAML file, read at the types the program
    expects of it: every key is there or not.  Of a sink the section may
    be missing or the key in it, hence the two options. *)
Record ServiceMapping := mkServiceMapping {
  svc_name : option string;             (* "name" *)
  svc_url : option string;              (* "url" *)
  svc_method : option string;           (* "method" *)
  svc_expected_status : option Z;       (* "expected_status" *)
  svc_expected_body : option string;    (* "expected_body" *)
  svc_headers : option (list (string * string))   (* "headers" *)
}.

Record GlobalMapping := mkGlobalMapping {
  g_timeout : option Z;             (* "timeout" *)
  g_check_interval : option Z;      (* "check_interval" *)
  g_failure_threshold : option Z    (* "failure_threshold" *)
}.

Record NotificationsMapping := mkNotificationsMapping {
  n_slack_webhook_url : option (option string);   (* "slack", "webhook_url" *)
  n_webhook_url : option (option string)          (* "webhook", "url" *)
}.

Record RollbackMapping := mkRollbackMapping {
  rb_enabled : option bool;     (* "enabled" *)
  rb_command : option string;   (* "command" *)
  rb_cooldown : option Z        (* "cooldown" *)
}.

Record ConfigMapping := mkConfigMapping {
  cfg_global : option GlobalMapping;                 (* "global" *)
  cfg_services : option (list ServiceMapping);       (* "services" *)
  cfg_notifications : option NotificationsMapping;   (* "notifications" *)
  cfg_rollback : option RollbackMapping              (* "rollback" *)
}.

(** [mapping[key]]: a missing key is [KeyError(key)]. *)
Definition mapping_getitem {A} (key : string) (v : option A) : M A :=
  match v with
  | Some a => ret a
  | None => raise (OtherException (String.append "'" (String.append key "'")))
  end.

(** The loop of [_parse_services], [services] being the list built so
    far. *)
Fixpoint _parse_services_loop (entries : list ServiceMapping)
    (services : list ServiceConfig) : M (list ServiceConfig) :=
  match entries with
  | [] => ret services
  | svc :: rest =>
      name <- mapping_getitem "name" (svc_name svc);;
      url <- mapping_getitem "url" (svc_url svc);;
      _parse_services_loop rest
        (services ++
           [mkServiceConfig name url
              (default "GET" (svc_method svc))
              (default 200 (svc_expected_status svc))
              (svc_expected_body svc)
              (default [] (svc_headers svc))])
  end.

Definition _parse_services (config : ConfigMapping) : M (list ServiceConfig) :=
  _parse_services_loop (default [] (cfg_services config)) [].

Definition Notifier__init__ (config : NotificationsMapping) : Notifier :=
  mkNotifier
    (default "" (default None (n_slack_webhook_url config)))
    (default "" (default None (n_webhook_url config))).

Definition RollbackEngine__init__ (config : RollbackMapping)
    : M RollbackEngine :=
  modify (set_last_rollback None);;;
  ret (mkRollbackEngine
         (default false (rb_enabled config))
         (default "" (rb_command config))
         (default 300 (rb_cooldown config))).

(** [DeployWatcher.__init__], from the mapping [_load_config] returns.  The
    [HealthChecker] it creates holds the HTTP client and its timeout only,
    which are the environment's here. *)
Definition DeployWatcher__init__ (config : ConfigMapping) : M DeployWatcher :=
  services <- _parse_services config;;
  let notifier :=
    Notifier__init__
      (default (mkNotificationsMapping None None) (cfg_notifications config)) in
  rollback <- RollbackEngine__init__
                (default (mkRollbackMapping None None None)
                   (cfg_rollback config));;
  modify (set_failure_counts ∅);;;
  let threshold :=
    default 3 (g_failure_threshold
                 (default (mkGlobalMapping None None None)
                    (cfg_global config))) in
  ret (mkDeployWatcher services notifier rollback threshold).

(** ** Vocabulary of the properties *)

(** The slots once the awaitables at the positions [order] have left their
    outcomes [R]. *)
Definition fill {A} (R : nat → Result A) (slots : list (option (Result A)))
    (order : list nat) : list (option (Result A)) :=
  foldl (λ s i, <[i := Some (R i)]> s) slots order.

(** The place of [i] in [order], as an instant. *)
Definition position (order : list nat) (i : nat) : Z :=
  match list_find (λ j, j = i) order with
  | Some (p, _) => Z.of_nat p
  | None => 0
  end.

(** [check] leaves the store alone, so its outcome is that of any run. *)
Definition check_outcome (env : ProbeEnv) (service : ServiceConfig)
    : Result CheckResult :=
  fst (check env service (mkStore ∅ None [])).

Definition with_expected_body (b : option string) (service : ServiceConfig)
    : ServiceConfig :=
  mkServiceConfig (name service) (url service) (method service)
    (expected_status service) b (headers service).

(** The outcome of the probe at position [i] of a cycle. *)
Definition probe_outcome (self : DeployWatcher) (env : CycleEnv) (i : nat)
    : Result CheckResult :=
  match services self !! i with
  | Some svc => check_outcome (probe env i) svc
  | None => Raise (OtherException "")
  end.

(** The awaitables [check_all] hands to [asyncio.gather]. *)
Definition probe_tasks (self : DeployWatcher) (env : CycleEnv)
    : list (Task CheckResult) :=
  imap (λ i svc, mkTask (monotonic_end (probe env i))
                   (check (probe env i) svc))
       (services self).

(** The posts a call of [notify] has to make, slack first. *)
Definition sink_posts (self : Notifier) (message : string)
    (results : list CheckResult) : list Event :=
  (if str_truthy (slack_url self)
   then [Post (slack_url self) message results] else []) ++
  (if str_truthy (webhook_url self)
   then [Post (webhook_url self) message results] else []).

(** The events a call of [execute] may add. *)
Definition spawn_only (evs : list Event) (self : RollbackEngine) : Prop :=
  evs = [] ∨ evs = [Spawn (command self)].

(** The launch or the wait of one call of [execute] raises [e]. *)
Definition launch_raises (self : RollbackEngine) (env : ShellEnv) (e : exn)
    : Prop :=
  create_subprocess_shell env (command self) = Raise e ∨
  ∃ proc, create_subprocess_shell env (command self) = Return proc ∧
          communicate proc = Raise e.

(** Calls of [notify] announcing that service [s] is down. *)
Fixpoint notify_calls (s : string) (evs : list Event) : nat :=
  match evs with
  | [] => 0%nat
  | CallNotify m _ :: rest =>
      ((if bool_decide (m = down_message s) then 1 else 0) +
       notify_calls s rest)%nat
  | _ :: rest => notify_calls s rest
  end.

(** Calls of [execute] that follow a call of [notify] for [s]; [current]
    tells whether the latest call of [notify] so far was one for [s]. *)
Fixpoint executes_after (s : string) (current : bool) (evs : list Event)
    : nat :=
  match evs with
  | [] => 0%nat
  | CallNotify m _ :: rest =>
      executes_after s (bool_decide (m = down_message s)) rest
  | CallExecute :: rest =>
      ((if current then 1 else 0) + executes_after s current rest)%nat
  | _ :: rest => executes_after s current rest
  end.

Definition remediation_attempts (s : string) (evs : list Event) : nat :=
  executes_after s false evs.

(** Events of the sinks and of the shell, which are no calls. *)
Definition quiet (evs : list Event) : Prop :=
  Forall (λ ev, match ev with
                | Post _ _ _ | Spawn _ => True
                | _ => False
                end) evs.

Definition next_count (r : CheckResult) (c : Z) : Z :=
  if bool_decide (status r = DOWN) then c + 1 else 0.

Definition escalates (self : DeployWatcher) (r : CheckResult) (c : Z) : bool :=
  bool_decide (status r = DOWN) && bool_decide (threshold self ≤ c + 1).

(** The events of one escalation for service [s]. *)
Definition escalation (s : string) (results : list CheckResult)
    (evs : list Event) : Prop :=
  ∃ posts spawns,
    evs = CallNotify (down_message s) results :: posts ++ CallExecute :: spawns ∧
    quiet posts ∧ quiet spawns.

(** The result of a cycle that bears the name [s], if there is one. *)
Fixpoint result_for (s : string) (l : list CheckResult) : option CheckResult :=
  match l with
  | [] => None
  | r :: rest =>
      if bool_decide (service_name r = s) then Some r else result_for s rest
  end.

(** What one cycle does for the name [s], from a store where its counter
    is [c]: the counter it leaves and the escalations it logs. *)
Definition cycle_effect (self : DeployWatcher) (s : string)
    (l : list CheckResult) (st st' : Store) (evs : list Event) : Prop :=
  let c := default 0 (failure_counts st !! s) in
  match result_for s l with
  | Some r =>
      failure_counts st' !! s = Some (next_count r c) ∧
      notify_calls s evs = (if escalates self r c then 1 else 0)%nat ∧
      ∀ cur, executes_after s cur evs = (if escalates self r c then 1 else 0)%nat
  | None =>
      failure_counts st' !! s = failure_counts st !! s ∧
      notify_calls s evs = 0%nat ∧
      ∀ cur, executes_after s cur evs = 0%nat
  end.

(** The store once the first [n] cycles are over. *)
Definition store_after (self : DeployWatcher) (world : nat → CycleEnv)
    (verbose : bool) (st0 : Store) (n : nat) : Store :=
  snd (run_cycles self world verbose 0 n st0).

(** The results returned by cycle [k], and what it adds to the log. *)
Definition cycle_results (self : DeployWatcher) (world : nat → CycleEnv)
    (verbose : bool) (st0 : Store) (k : nat) : list CheckResult :=
  match fst (run_once self (world k) verbose
               (store_after self world verbose st0 k)) with
  | Return results => results
  | Raise _ => []
  end.

Definition cycle_events (self : DeployWatcher) (world : nat → CycleEnv)
    (verbose : bool) (st0 : Store) (k : nat) : list Event :=
  drop (length (log (store_after self world verbose st0 k)))
       (log (store_after self world verbose st0 (S k))).

(** Cycle [k] has a [DOWN] result for the service named [s]. *)
Definition down_in_cycle (self : DeployWatcher) (world : nat → CycleEnv)
    (verbose : bool) (st0 : Store) (s : string) (k : nat) : Prop :=
  ∃ r, r ∈ cycle_results self world verbose st0 k ∧
       service_name r = s ∧ status r = DOWN.

(** The results of the probes of a cycle; [check_all] does not depend on
    the store. *)
Definition probed (self : DeployWatcher) (env : CycleEnv) : list CheckResult :=
  match fst (check_all self env (mkStore ∅ None [])) with
  | Return results => results
  | Raise _ => []
  end.

(** The table of the cycle renders, if it is to be printed at all. *)
Definition renders (self : DeployWatcher) (env : CycleEnv) (verbose : bool)
    : Prop :=
  verbose = true →
  console_print env (add_row <$> probed self env) = Return tt.

(** The first [n] cycles have all returned. *)
Definition ran (self : DeployWatcher) (world : nat → CycleEnv)
    (verbose : bool) (st0 : Store) (n : nat) : Prop :=
  fst (run_cycles self world verbose 0 n st0) = Return tt.

(** The exit status of the process: that of [sys.exit], 0 when [main]
    returns, 1 when an exception escapes it. *)
Definition exit_status (outcome : Result Exit) : option Z :=
  match outcome with
  | Return (SysExit code) => Some code
  | Return Returned => Some 0
  | Return Looping => None
  | Raise _ => Some 1
  end.

(** ** Vocabulary of the further properties *)

(** The reply a probe needs to be [HEALTHY]. *)
Definition healthy_reply (env : ProbeEnv) (service : ServiceConfig) : bool :=
  match request env (method service) (url service) (headers service) with
  | Return response =>
      bool_decide (resp_status_code response = expected_status service) &&
      match expected_body service with
      | Some expected => str_in expected (text response)
      | None => true
      end
  | Raise _ => false
  end.

(** The counter of the name [s], as [failure_counts.get(s, 0)] reads it. *)
Definition counter (st : Store) (s : string) : Z :=
  default 0 (failure_counts st !! s).

(** The results of a cycle that bear the name [s]. *)
Definition named (s : string) (l : list CheckResult) : list CheckResult :=
  filter (λ r, service_name r = s) l.

(** A counter taken through some results, one after the other. *)
Definition count_through (l : list CheckResult) (c : Z) : Z :=
  foldl (λ c r, next_count r c) c l.

(** The calls of [notify] and [execute] among some events. *)
Fixpoint calls_only (evs : list Event) : list Event :=
  match evs with
  | [] => []
  | CallNotify m rs :: rest => CallNotify m rs :: calls_only rest
  | CallExecute :: rest => CallExecute :: calls_only rest
  | _ :: rest => calls_only rest
  end.

(** The calls of one result: none, or [notify] then [execute]. *)
Definition calls_for (self : DeployWatcher) (results : list CheckResult)
    (st : Store) (r : CheckResult) : list Event :=
  if escalates self r (counter st (service_name r))
  then [CallNotify (down_message (service_name r)) results; CallExecute]
  else [].

(** Launches of a command among some events. *)
Fixpoint spawn_count (evs : list Event) : nat :=
  match evs with
  | [] => 0%nat
  | Spawn _ :: rest => S (spawn_count rest)
  | _ :: rest => spawn_count rest
  end.

(** What a cycle of the watcher [self] may do to the outside world: call
    [notify] with the results of the cycle, post them to a configured
    sink, call [execute], launch the configured command of an enabled
    engine. *)
Definition allowed (self : DeployWatcher) (results : list CheckResult)
    (ev : Event) : Prop :=
  match ev with
  | CallNotify m rs =>
      rs = results ∧
      ∃ r, r ∈ results ∧ status r = DOWN ∧ m = down_message (service_name r)
  | Post sink m rs =>
      rs = results ∧ str_truthy sink = true ∧
      (sink = slack_url (notifier self) ∨ sink = webhook_url (notifier self))
  | CallExecute => True
  | Spawn cmd =>
      cmd = command (rollback self) ∧ enabled (rollback self) = true ∧
      str_truthy cmd = true
  end.

(** What a call of [execute] made with the store [st] adds to the log and
    records as the last rollback. *)
Definition execute_effect (self : RollbackEngine) (env : ShellEnv)
    (st : Store) (xevs : list Event) (t : option Z) : Prop :=
  if negb (enabled self) || negb (str_truthy (command self))
     || in_cooldown self env st
  then xevs = [] ∧ t = _last_rollback st
  else
    match create_subprocess_shell env (command self) with
    | Raise _ => xevs = [] ∧ t = _last_rollback st
    | Return proc =>
        xevs = [Spawn (command self)] ∧
        t = match communicate proc with
            | Return _ => Some (time_done env)
            | Raise _ => _last_rollback st
            end
    end.

(** Once launched, the command of [rb] is waited for without error in
    every call of the cycle. *)
Definition waits_return (rb : RollbackEngine) (env : CycleEnv) : Prop :=
  ∀ i proc,
    create_subprocess_shell (shell env i) (command rb) = Return proc →
    ∃ out, communicate proc = Return out.

(** The clock readings of the cycle lie within one cooldown of [rb]. *)
Definition within_cooldown (rb : RollbackEngine) (env : CycleEnv) : Prop :=
  ∀ i j,
    time_done (shell env i) ≠ 0 ∧
    time_check (shell env j) - time_done (shell env i) < cooldown rb.

(** The last rollback recorded is one of this cycle. *)
Definition hot (env : CycleEnv) (st : Store) : Prop :=
  ∃ j, _last_rollback st = Some (time_done (shell env j)).

(** A service read from its entry, the defaults filled in. *)
Definition parsed_from (entry : ServiceMapping) (svc : ServiceConfig) : Prop :=
  svc_name entry = Some (name svc) ∧
  svc_url entry = Some (url svc) ∧
  method svc = default "GET" (svc_method entry) ∧
  expected_status svc = default 200 (svc_expected_status entry) ∧
  expected_body svc = svc_expected_body entry ∧
  headers svc = default [] (svc_headers entry).

(** The entry at position [i] is the first without a name or a url, and
    [e] is the [KeyError] for the key it lacks. *)
Definition first_incomplete (entries : list ServiceMapping) (i : nat)
    (e : exn) : Prop :=
  ∃ entry, entries !! i = Some entry ∧
    (∀ j prior, (j < i)%nat → entries !! j = Some prior →
       is_Some (svc_name prior) ∧ is_Some (svc_url prior)) ∧
    (svc_name entry = None ∧ e = OtherException "'name'" ∨
     is_Some (svc_name entry) ∧ svc_url entry = None ∧
     e = OtherException "'url'").

(** The rollback section is missing, or does not enable a command. *)
Definition rollback_off (config : ConfigMapping) : Prop :=
  match cfg_rollback config with
  | None => True
  | Some rb =>
      rb_enabled rb = None ∨ rb_enabled rb = Some false ∨
      rb_command rb = None ∨ rb_command rb = Some ""
  end.

(** No sink has a url. *)
Definition notifications_off (config : ConfigMapping) : Prop :=
  match cfg_notifications config with
  | None => True
  | Some nt =>
      (n_slack_webhook_url nt = None ∨ n_slack_webhook_url nt = Some None ∨
       n_slack_webhook_url nt = Some (Some "")) ∧
      (n_webhook_url nt = None ∨ n_webhook_url nt = Some None ∨
       n_webhook_url nt = Some (Some ""))
  end.

(** ** Concrete inputs *)

Definition api : ServiceConfig :=
  mkServiceConfig "api" "http://api.internal/health" "GET" 200 None [].
Definition db : ServiceConfig :=
  mkServiceConfig "db" "http://db.internal/ping" "GET" 200 (Some "pong") [].

(** A probe that times out at instant [t], and one answered at [t]. *)
Definition timing_out (t : Z) : ProbeEnv :=
  mkProbeEnv 0 (λ _ _ _, Raise (TimeoutException "timed out")) t 0.
Definition answered (code : Z) (body : string) (t : Z) : ProbeEnv :=
  mkProbeEnv 0 (λ _ _ _, Return (mkResponse code body)) t 0.

Definition sinks_up : SinkEnv := mkSinkEnv (Return tt) 1 (Return tt) 2.
Definition slack_failing : SinkEnv :=
  mkSinkEnv (Raise (OtherException "connection refused")) 1 (Return tt) 2.

(** A shell whose command exits with [code], the call being made at [t]. *)
Definition shell_exits (code : Z) (t : Z) : ShellEnv :=
  mkShellEnv t (λ _, Return (mkProcess (Return ("", "")) code)) (t + 1).
(** A shell that cannot launch the command. *)
Definition shell_broken (t : Z) : ShellEnv :=
  mkShellEnv t (λ _, Raise (OtherException "cannot allocate memory")) (t + 1).

(** A shell that launches the command and then fails to wait for it. *)
Definition shell_wait_fails (t : Z) : ShellEnv :=
  mkShellEnv t
    (λ _, Return (mkProcess
            (Raise (OtherException "[Errno 5] Input/output error")) 0))
    (t + 1).

(** The console of rich on the texts of the runs below: the closing tag
    [[/x]] matches no open tag and raises [MarkupError]; the status cells,
    whose tags are closed, render. *)
Definition rich_markup (cell : string) : Result unit :=
  if bool_decide (cell = "[/x]")
  then Raise (OtherException
                "closing tag '[/x]' at position 0 doesn't match any open tag")
  else Return tt.

Definition engine : RollbackEngine := mkRollbackEngine true "./rollback.sh" 300.
Definition slack_only : Notifier := mkNotifier "https://hooks.slack.test/T0" "".
Definition both_sinks : Notifier :=
  mkNotifier "https://hooks.slack.test/T0" "https://alerts.test/hook".

Definition fresh : Store := mkStore ∅ None [].

(** One service, threshold 2, cooldown 300. *)
Definition api_watcher : DeployWatcher :=
  mkDeployWatcher [api] slack_only engine 2.

(** Every probe times out; cycle [k] starts at instant [1000 + 10 k]. *)
Definition always_down (k : nat) : CycleEnv :=
  mkCycleEnv (λ _, timing_out 5) (λ _, sinks_up)
    (λ _, shell_exits 0 (1000 + 10 * Z.of_nat k)) rich_markup.

(** Two cycles down, then healthy. *)
Definition down_down_up (k : nat) : CycleEnv :=
  mkCycleEnv (λ _, if (k <? 2)%nat then timing_out 5 else answered 200 "ok" 1)
    (λ _, sinks_up) (λ _, shell_exits 0 (1000 + 10 * Z.of_nat k)) rich_markup.

(** A service whose name is a closing tag, answering as expected. *)
Definition tagged : ServiceConfig :=
  mkServiceConfig "[/x]" "http://x.internal/health" "GET" 200 None [].
Definition tagged_watcher : DeployWatcher :=
  mkDeployWatcher [tagged] slack_only engine 3.
Definition all_answering : CycleEnv :=
  mkCycleEnv (λ _, answered 200 "ok" 1) (λ _, sinks_up)
    (λ _, shell_exits 0 1000) rich_markup.

(** The second service answers before the first: the probes complete in
    the order [1; 0] and the results still come in declaration order. *)
Definition two_services : DeployWatcher :=
  mkDeployWatcher [api; db] both_sinks engine 3.
Definition db_first : CycleEnv :=
  mkCycleEnv (λ i, match i with
                   | O => answered 200 "ok" 40
                   | _ => answered 200 "pong" 3
                   end)
    (λ _, sinks_up) (λ _, shell_exits 0 1000) rich_markup.

(** Two services, threshold 1: both escalate in the first cycle. *)
Definition hasty_watcher : DeployWatcher :=
  mkDeployWatcher [api; db] slack_only engine 1.

(** A configuration that names one service and nothing else. *)
Definition bare_config : ConfigMapping :=
  mkConfigMapping None
    (Some [mkServiceMapping (Some "api") (Some "http://api.internal/health")
             None None None None])
    None None.
Definition bare_watcher : DeployWatcher :=
  mkDeployWatcher [api] (mkNotifier "" "") (mkRollbackEngine false "" 300) 3.

(** * Properties *)

(** ** The monad *)

Lemma add_log_nil st : add_log [] st = st.
Proof. destruct st as [f t l]. unfold add_log. simpl. by rewrite app_nil_r. Qed.

Lemma add_log_app evs1 evs2 st :
  add_log evs2 (add_log evs1 st) = add_log (evs1 ++ evs2) st.
Proof. unfold add_log. simpl. by rewrite app_assoc. Qed.

(** ** asyncio.gather *)

Lemma outcomes_run {A} (rs : list (Result A)) st :
  outcomes (Some <$> rs) st = (Return rs, st).
Proof.
  induction rs as [|r rs IH]; [done|].
  rewrite fmap_cons. cbn [outcomes]. unfold bind. by rewrite IH.
Qed.

Lemma values_run {A} (vs : list A) st :
  values (Return <$> vs) st = (Return vs, st).
Proof.
  induction vs as [|v vs IH]; [done|].
  rewrite fmap_cons. cbn [values]. unfold bind. by rewrite IH.
Qed.

Lemma all_returned {A} (rs : list (Result A)) :
  Forall (λ r, ∃ a, r = Return a) rs → ∃ vs, rs = Return <$> vs.
Proof.
  induction 1 as [|r rs [a ->] _ [vs ->]].
  - by exists [].
  - by exists (a :: vs).
Qed.

Lemma completion_order_perm {A} (aws : list (Task A)) :
  completion_order aws ≡ₚ seq 0 (length aws).
Proof.
  unfold completion_order. rewrite merge_sort_Permutation.
  replace (fst <$> imap (λ i t, (i, done_at t)) aws)
    with (seq 0 (length aws)); [done|].
  apply list_eq. intros j.
  rewrite list_lookup_fmap, list_lookup_imap.
  destruct (aws !! j) as [t|] eqn:Hj; simpl.
  - apply lookup_seq. split; [done|]. by eapply lookup_lt_Some.
  - apply lookup_seq_ge. by apply lookup_ge_None.
Qed.

Global Instance earlier_trans : Transitive earlier.
Proof. unfold earlier. intros x y z. lia. Qed.

Global Instance earlier_total : Total earlier.
Proof. unfold earlier. intros x y. lia. Qed.

Lemma position_lookup order p i :
  NoDup order → order !! p = Some i → position order i = Z.of_nat p.
Proof.
  intros Hnd Hp. unfold position.
  destruct (list_find (λ j, j = i) order) as [[q j]|] eqn:Hfind.
  - apply list_find_Some in Hfind as (Hq & -> & _).
    by rewrite (NoDup_lookup order p q i).
  - destruct (list_find_elem_of (λ j, j = i) order i) as [? Hsome];
      [by eapply list_elem_of_lookup_2|done|congruence].
Qed.

Lemma numbered_sorted (order : list nat) (k : nat) :
  StronglySorted earlier (imap (λ p i, (i, Z.of_nat (k + p))) order).
Proof.
  revert k. induction order as [|i order IH]; intros k; [constructor|].
  rewrite imap_cons. constructor.
  - rewrite (imap_ext _ (λ p i, (i, Z.of_nat (S k + p)))); [apply IH|].
    intros p j _. simpl. do 2 f_equal. lia.
  - apply Forall_forall. intros x Hx.
    apply elem_of_lookup_imap in Hx as (p & j & -> & _).
    unfold earlier. simpl. lia.
Qed.

(** Every permutation of the positions is a completion order: it is the
    one of awaitables that resolve at their places in it. *)
Lemma completion_order_realised {A} (aws : list (Task A)) (order : list nat) :
  order ≡ₚ seq 0 (length aws) →
  (∀ i t, aws !! i = Some t → done_at t = position order i) →
  completion_order aws = order.
Proof.
  intros Hperm Hdone.
  assert (NoDup order) as Hnd by (rewrite Hperm; apply NoDup_seq).
  unfold completion_order.
  set (pair := λ i : nat, (i, position order i)).
  assert (imap (λ i t, (i, done_at t)) aws = pair <$> seq 0 (length aws))
    as ->.
  { rewrite <- imap_seq_0. apply imap_ext. intros i t Ht.
    unfold pair. by rewrite (Hdone i t). }
  assert (pair <$> order = imap (λ p i, (i, Z.of_nat (0 + p))) order) as Hnum.
  { apply list_eq. intros p. rewrite list_lookup_fmap, list_lookup_imap.
    destruct (order !! p) as [i|] eqn:Hp; [|done]. simpl. unfold pair.
    by rewrite (position_lookup order p i). }
  assert (merge_sort earlier (pair <$> seq 0 (length aws)) = pair <$> order)
    as ->.
  { apply StronglySorted_unique_strong with (R := earlier).
    - intros x1 x2 Hx1 Hx2 H12 H21.
      rewrite merge_sort_Permutation, <- Hperm in Hx1.
      apply list_elem_of_fmap in Hx1 as (i & -> & Hi).
      apply list_elem_of_fmap in Hx2 as (j & -> & Hj).
      apply list_elem_of_lookup in Hi as [p Hp].
      apply list_elem_of_lookup in Hj as [q Hq].
      unfold earlier, pair in *. simpl in *.
      rewrite (position_lookup order p i), (position_lookup order q j)
        in * by done.
      assert (p = q) as -> by lia. congruence.
    - apply StronglySorted_merge_sort; apply _.
    - rewrite Hnum. apply numbered_sorted.
    - by rewrite merge_sort_Permutation, Hperm. }
  rewrite <- list_fmap_compose. apply list_fmap_id.
Qed.

Section Gather.
Context {A : Type}.
Variable aws : list (Task A).
(** The awaitable at position [i] ends as [R i] after logging [E i]. *)
Variable R : nat → Result A.
Variable E : nat → list Event.
Hypothesis Hbody :
  ∀ i t, aws !! i = Some t → ∀ st, body t st = (R i, add_log (E i) st).

Lemma gather_loop_run re order slots st :
  Forall (λ i, (i < length aws)%nat) order →
  re = true ∨ Forall (λ i, ∃ a, R i = Return a) order →
  gather_loop re aws order slots st =
    (Return (fill R slots order), add_log (order ≫= E) st).
Proof.
  revert slots st.
  induction order as [|i order IH]; intros slots st Hlt Hre.
  - simpl. by rewrite add_log_nil.
  - apply Forall_cons in Hlt as [Hi Hlt].
    apply lookup_lt_is_Some in Hi as [t Ht].
    simpl. rewrite Ht, (Hbody i t Ht).
    assert (re = true ∨ Forall (λ i, ∃ a, R i = Return a) order) as Hre'.
    { destruct Hre as [?|Hall]; [by left|right].
      by apply Forall_cons in Hall as [_ ?]. }
    destruct (R i) as [a|e] eqn:HR.
    + rewrite IH by done. by rewrite add_log_app.
    + destruct Hre as [->|Hall].
      * rewrite IH by done. by rewrite add_log_app.
      * apply Forall_cons in Hall as [[a Ha] _]. congruence.
Qed.

Lemma fill_snoc slots order i :
  fill R slots (order ++ [i]) = <[i := Some (R i)]> (fill R slots order).
Proof. unfold fill. by rewrite foldl_app. Qed.

Lemma fill_length slots order : length (fill R slots order) = length slots.
Proof.
  induction order as [|i order IH] using rev_ind; [done|].
  by rewrite fill_snoc, length_insert.
Qed.

Lemma fill_lookup slots order j :
  j ∈ order → (j < length slots)%nat →
  fill R slots order !! j = Some (Some (R j)).
Proof.
  induction order as [|i order IH] using rev_ind; intros Hin Hlt.
  - by apply elem_of_nil in Hin.
  - rewrite fill_snoc. destruct (decide (i = j)) as [->|Hne].
    + apply list_lookup_insert_eq. by rewrite fill_length.
    + rewrite list_lookup_insert_ne by done.
      apply IH; [|done].
      apply elem_of_app in Hin as [?|Hin]; [done|].
      apply list_elem_of_singleton in Hin. congruence.
Qed.

Lemma fill_all order :
  order ≡ₚ seq 0 (length aws) →
  fill R (replicate (length aws) None) order =
    Some <$> (R <$> seq 0 (length aws)).
Proof.
  intros Hperm. apply list_eq. intros j.
  destruct (decide (j < length aws)%nat) as [Hlt|Hge].
  - rewrite fill_lookup.
    + rewrite !list_lookup_fmap, lookup_seq_lt by done. done.
    + rewrite Hperm. apply elem_of_seq. lia.
    + by rewrite length_replicate.
  - rewrite lookup_ge_None_2
      by (rewrite fill_length, length_replicate; lia).
    rewrite lookup_ge_None_2; [done|].
    rewrite !length_fmap, length_seq. lia.
Qed.

Lemma completion_order_lt :
  Forall (λ i, (i < length aws)%nat) (completion_order aws).
Proof.
  apply Forall_forall. intros i Hi.
  rewrite completion_order_perm in Hi. apply elem_of_seq in Hi. lia.
Qed.

(** With [return_exceptions] every awaitable runs, and the awaiter gets
    their outcomes in argument order. *)
Lemma gather_return_exceptions_run st :
  gather_return_exceptions aws st =
    (Return (R <$> seq 0 (length aws)),
     add_log (completion_order aws ≫= E) st).
Proof.
  unfold gather_return_exceptions, bind.
  rewrite gather_loop_run by (auto using completion_order_lt).
  rewrite fill_all by apply completion_order_perm.
  apply outcomes_run.
Qed.

(** When no awaitable raises, the awaiter gets their values in argument
    order. *)
Lemma gather_run st :
  (∀ i, (i < length aws)%nat → ∃ a, R i = Return a) →
  ∃ vs, gather aws st =
          (Return vs, add_log (completion_order aws ≫= E) st) ∧
        Return <$> vs = R <$> seq 0 (length aws).
Proof.
  intros HV.
  destruct (all_returned (R <$> seq 0 (length aws))) as [vs Hvs].
  { apply Forall_fmap, Forall_forall. intros i Hi. simpl.
    apply HV. apply elem_of_seq in Hi. lia. }
  exists vs. split; [|done].
  unfold gather, bind. rewrite gather_loop_run.
  - rewrite fill_all by apply completion_order_perm.
    by rewrite outcomes_run, Hvs, values_run.
  - apply completion_order_lt.
  - right. eapply Forall_impl; [apply completion_order_lt|].
    intros i Hi. simpl in Hi. eauto.
Qed.
End Gather.

(** ** Prober *)

Lemma str_in_empty hay : str_in "" hay = true.
Proof. by destruct hay. Qed.

Lemma str_truthy_false s : str_truthy s = false → s = "".
Proof. by destruct s. Qed.

Lemma check_pure env service st :
  check env service st = (check_outcome env service, st).
Proof.
  unfold check_outcome, check, try_except, bind, lift, ret.
  destruct (request env _ _ _) as [response|[m|m]]; reflexivity.
Qed.

Lemma check_returns env service :
  ∃ r, check_outcome env service = Return r ∧ service_name r = name service.
Proof.
  unfold check_outcome, check, try_except, bind, lift, ret.
  destruct (request env _ _ _) as [response|[m|m]]; simpl; eauto.
Qed.

(** C5: [check] never raises; a timeout of the transport gives [DOWN] with
    error "Timeout", any other failure of the transport gives [DOWN] with
    the description of the failure, and a response gives [DEGRADED] when its
    status code is not the expected one, else [DEGRADED] when an expected
    body is configured and is not a substring of the response text, else
    [HEALTHY]. *)
Theorem check_classifies (env : ProbeEnv) (service : ServiceConfig) (st : Store) :
  ∃ r, check env service st = (Return r, st) ∧
    match request env (method service) (url service) (headers service) with
    | Raise (TimeoutException _) =>
        status r = DOWN ∧ error r = Some "Timeout"
    | Raise (OtherException description) =>
        status r = DOWN ∧ error r = Some description
    | Return response =>
        status r =
          if bool_decide (resp_status_code response ≠ expected_status service)
          then DEGRADED
          else match expected_body service with
               | Some expected =>
                   if str_in expected (text response) then HEALTHY else DEGRADED
               | None => HEALTHY
               end
    end.
Proof.
  unfold check, try_except, bind, lift, ret.
  destruct (request env _ _ _) as [response|[m|m]]; simpl.
  - eexists; split; [reflexivity|]. simpl.
    destruct (expected_body service) as [expected|]; [|done].
    destruct (str_truthy expected) eqn:Ht; simpl.
    + destruct (str_in expected (text response)); simpl; by case_bool_decide.
    + apply str_truthy_false in Ht as ->. rewrite str_in_empty.
      by case_bool_decide.
  - eexists; split; [reflexivity|]. done.
  - eexists; split; [reflexivity|]. done.
Qed.

(** C9: [check] always returns a result; after a response it is [HEALTHY]
    or [DEGRADED] and after an exception it is [DOWN]; a [HEALTHY] or
    [DEGRADED] result carries a status code and no error, a [DOWN] result
    carries an error and no status code. *)
Theorem check_result_fields (env : ProbeEnv) (service : ServiceConfig) (st : Store) :
  ∃ r, check env service st = (Return r, st) ∧
    match request env (method service) (url service) (headers service) with
    | Return response =>
        (status r = HEALTHY ∨ status r = DEGRADED) ∧
        status_code r = Some (resp_status_code response)
    | Raise e => status r = DOWN
    end ∧
    (status r = HEALTHY ∨ status r = DEGRADED →
       is_Some (status_code r) ∧ error r = None) ∧
    (status r = DOWN → status_code r = None ∧ is_Some (error r)).
Proof.
  unfold check, try_except, bind, lift, ret.
  destruct (request env _ _ _) as [response|[m|m]]; simpl.
  - eexists; split; [reflexivity|]. simpl.
    assert (∀ s0 : ServiceStatus, s0 = HEALTHY ∨ s0 = DEGRADED → s0 ≠ DOWN)
      as Hnd by (intros ? [-> | ->]; done).
    set (s1 := if bool_decide _ then DEGRADED else HEALTHY).
    assert (s1 = HEALTHY ∨ s1 = DEGRADED) as H1
      by (subst s1; case_bool_decide; auto).
    set (s2 := match expected_body service with
               | Some expected => _ | None => s1 end).
    assert (s2 = HEALTHY ∨ s2 = DEGRADED) as H2.
    { subst s2. destruct (expected_body service) as [expected|]; [|done].
      destruct (_ && _); auto. }
    split; [by split|].
    split; [intros _; split; [by eexists|done]|].
    intros Hd. by apply Hnd in H2.
  - eexists; split; [reflexivity|]. simpl.
    split; [done|]. split; [intros [?|?]; done|].
    intros _; split; [done|by eexists].
  - eexists; split; [reflexivity|]. simpl.
    split; [done|]. split; [intros [?|?]; done|].
    intros _; split; [done|by eexists].
Qed.

(** C10: an [expected_body] that is the empty string is treated as no
    expected body: [check] behaves as on the same service without one, and
    a response with the expected status code is [HEALTHY]. *)
Theorem check_empty_expected_body (env : ProbeEnv) (service : ServiceConfig)
    (st : Store) (response : Response) :
  expected_body service = Some "" →
  request env (method service) (url service) (headers service) = Return response →
  resp_status_code response = expected_status service →
  check env service st = check env (with_expected_body None service) st ∧
  ∃ r, check env service st = (Return r, st) ∧ status r = HEALTHY.
Proof.
  intros Hb Hreq Hcode.
  unfold check, try_except, bind, lift, ret. simpl.
  rewrite Hreq, Hb. simpl. split; [done|].
  eexists; split; [reflexivity|]. simpl.
  by rewrite bool_decide_eq_false_2 by (intros ?; done).
Qed.

(** ** check_all *)

Lemma bind_silent (order : list nat) : order ≫= (λ _, []) = @nil Event.
Proof. induction order as [|j order IH]; [done|]. by rewrite bind_cons. Qed.

Section CheckAll.
Variable self : DeployWatcher.
Variable env : CycleEnv.

Lemma check_all_run st :
  ∃ results, check_all self env st = (Return results, st) ∧
    Return <$> results = probe_outcome self env <$> seq 0 (length (services self)).
Proof.
  change (check_all self env) with (gather (probe_tasks self env)).
  unfold probe_tasks.
  set (tasks := imap _ (services self)).
  assert (length tasks = length (services self)) as Hlen
    by apply length_imap.
  destruct (gather_run tasks (probe_outcome self env) (λ _, []) ) with (st := st)
    as (results & Hrun & Hres).
  - intros i t Ht st'. subst tasks.
    rewrite list_lookup_imap in Ht. unfold probe_outcome.
    destruct (services self !! i) as [svc|]; [|done].
    injection Ht as <-. simpl. by rewrite add_log_nil, check_pure.
  - intros i Hi. unfold probe_outcome. rewrite Hlen in Hi.
    apply lookup_lt_is_Some in Hi as [svc ->].
    destruct (check_returns (probe env i) svc) as (r & -> & _). eauto.
  - exists results. rewrite Hlen in Hres. split; [|done].
    rewrite Hrun. f_equal.
    by rewrite bind_silent, add_log_nil.
Qed.

Lemma check_all_lookup st results i svc :
  check_all self env st = (Return results, st) →
  services self !! i = Some svc →
  ∃ r, results !! i = Some r ∧
       check (probe env i) svc st = (Return r, st) ∧
       service_name r = name svc.
Proof.
  intros Hrun Hsvc.
  destruct (check_all_run st) as (results' & Hrun' & Hres).
  rewrite Hrun in Hrun'. injection Hrun' as <-.
  destruct (check_returns (probe env i) svc) as (r & Hr & Hname).
  exists r. rewrite check_pure, Hr. split; [|done].
  assert ((Return <$> results) !! i = Some (Return r)) as Hi.
  { rewrite Hres, list_lookup_fmap, lookup_seq_lt
      by (by eapply lookup_lt_Some).
    simpl. unfold probe_outcome. by rewrite Hsvc, Hr. }
  rewrite list_lookup_fmap in Hi.
  destruct (results !! i) as [r'|]; [|done]. simpl in Hi. congruence.
Qed.

Lemma check_all_length st results :
  check_all self env st = (Return results, st) →
  length results = length (services self).
Proof.
  intros Hrun.
  destruct (check_all_run st) as (results' & Hrun' & Hres).
  rewrite Hrun in Hrun'. injection Hrun' as <-.
  apply (f_equal length) in Hres.
  by rewrite !length_fmap, length_seq in Hres.
Qed.

Lemma check_all_names st results :
  check_all self env st = (Return results, st) →
  service_name <$> results = name <$> services self.
Proof.
  intros Hrun. apply list_eq. intros i.
  rewrite !list_lookup_fmap.
  destruct (services self !! i) as [svc|] eqn:Hsvc.
  - destruct (check_all_lookup st results i svc) as (r & -> & _ & Hname);
      [done..|]. simpl. by rewrite Hname.
  - rewrite lookup_ge_None_2; [done|].
    rewrite (check_all_length st) by done. by apply lookup_ge_None.
Qed.
End CheckAll.

(** The probes of a cycle can complete in any order whatever. *)
Lemma probes_complete_in_any_order (self : DeployWatcher) (order : list nat) :
  order ≡ₚ seq 0 (length (services self)) →
  ∃ env, completion_order (probe_tasks self env) = order.
Proof.
  intros Hperm.
  exists (mkCycleEnv (λ i, timing_out (position order i))
            (λ _, sinks_up) (λ _, shell_exits 0 0) (λ _, Return tt)).
  apply completion_order_realised.
  - unfold probe_tasks. by rewrite length_imap.
  - intros i t Ht. unfold probe_tasks in Ht.
    rewrite list_lookup_imap in Ht.
    destruct (services self !! i); [|done]. by injection Ht as <-.
Qed.

(** C7: [check_all] returns, for any completion instants of the probes, one
    result per configured service, the result at each position being that
    of probing the service declared at that position. *)
Theorem check_all_declaration_order (self : DeployWatcher) (env : CycleEnv)
    (st : Store) :
  ∃ results, check_all self env st = (Return results, st) ∧
    length results = length (services self) ∧
    service_name <$> results = name <$> services self ∧
    ∀ i svc, services self !! i = Some svc →
      ∃ r, results !! i = Some r ∧
           check (probe env i) svc st = (Return r, st).
Proof.
  destruct (check_all_run self env st) as (results & Hrun & _).
  exists results. split; [done|].
  split; [by eapply check_all_length|].
  split; [by eapply check_all_names|].
  intros i svc Hsvc.
  destruct (check_all_lookup self env st results i svc) as (r & ? & ? & _);
    eauto.
Qed.

(** ** Notifier *)

Lemma notify_run self env message results st :
  ∃ posts, notify self env message results st =
             (Return PyNone, add_log posts st) ∧
           posts ≡ₚ sink_posts self message results.
Proof.
  unfold notify, sink_posts.
  destruct (str_truthy (slack_url self)), (str_truthy (webhook_url self));
    simpl.
  - set (tasks := [_; _]). unfold bind.
    rewrite (gather_return_exceptions_run tasks
               (λ i, match i with O => slack_post env | _ => webhook_post env end)
               (λ i, match i with
                     | O => [Post (slack_url self) message results]
                     | _ => [Post (webhook_url self) message results]
                     end)).
    + eexists. split; [reflexivity|].
      by rewrite completion_order_perm.
    + intros [|[|i]] t Ht st'; [| |done]; injection Ht as <-; done.
  - set (tasks := [_]). unfold bind.
    rewrite (gather_return_exceptions_run tasks (λ _, slack_post env)
               (λ _, [Post (slack_url self) message results])).
    + eexists. split; [reflexivity|].
      by rewrite completion_order_perm.
    + intros [|i] t Ht st'; [|done]; injection Ht as <-; done.
  - set (tasks := [_]). unfold bind.
    rewrite (gather_return_exceptions_run tasks (λ _, webhook_post env)
               (λ _, [Post (webhook_url self) message results])).
    + eexists. split; [reflexivity|].
      by rewrite completion_order_perm.
    + intros [|i] t Ht st'; [|done]; injection Ht as <-; done.
  - exists []. by rewrite add_log_nil.
Qed.

(** C6, as the code has it: [notify] never raises and evaluates to [None];
    whatever the outcome of each post, every configured sink is posted to
    once and nothing else happens; with no sink configured the store is
    left as it was. *)
Theorem notify_isolates_sinks (self : Notifier) (env : SinkEnv)
    (message : string) (results : list CheckResult) (st : Store) :
  ∃ posts, notify self env message results st =
             (Return PyNone, add_log posts st) ∧
           posts ≡ₚ sink_posts self message results ∧
           (str_truthy (slack_url self) = false →
            str_truthy (webhook_url self) = false →
            notify self env message results st = (Return PyNone, st)).
Proof.
  destruct (notify_run self env message results st) as (posts & Hrun & Hp).
  exists posts. split; [done|]. split; [done|].
  intros Hs Hw. unfold notify. by rewrite Hs, Hw.
Qed.

(** ** RollbackEngine *)

Lemma execute_run self env st :
  ∃ b t evs, execute self env st =
               (Return b, add_log evs (set_last_rollback t st)) ∧
             spawn_only evs self.
Proof.
  unfold execute, spawn_only.
  destruct (negb _ || negb _).
  { exists false, (_last_rollback st), []. split; [|by left].
    destruct st. unfold ret, add_log, set_last_rollback. simpl.
    by rewrite app_nil_r. }
  unfold bind, get, try_except, lift, emit, modify, ret.
  destruct (in_cooldown self env st).
  { exists false, (_last_rollback st), []. split; [|by left].
    destruct st. unfold add_log, set_last_rollback. simpl.
    by rewrite app_nil_r. }
  destruct (create_subprocess_shell env (command self)) as [proc|e].
  - destruct (communicate proc) as [out|e].
    + exists (bool_decide (returncode proc = 0)), (Some (time_done env)),
        [Spawn (command self)].
      split; [|by right]. by case_bool_decide.
    + exists false, (_last_rollback st), [Spawn (command self)].
      split; [|by right]. by destruct st.
  - exists false, (_last_rollback st), []. split; [|by left].
    destruct st. unfold add_log, set_last_rollback. simpl.
    by rewrite app_nil_r.
Qed.

(** X22: an exception raised while the command is launched or waited for
    is caught: [execute] returns [False], logs at most the launch, and
    the timestamp of the last rollback stays what it was. *)
Theorem execute_exception_caught (self : RollbackEngine) (env : ShellEnv)
    (st : Store) (e : exn) :
  launch_raises self env e →
  ∃ evs, execute self env st = (Return false, add_log evs st) ∧
         spawn_only evs self ∧
         _last_rollback (snd (execute self env st)) = _last_rollback st.
Proof.
  intros Hraise. unfold execute, spawn_only.
  destruct (negb _ || negb _).
  { exists []. rewrite add_log_nil. auto. }
  unfold bind, get, try_except, lift, emit, modify, ret.
  destruct (in_cooldown self env st).
  { exists []. rewrite add_log_nil. auto. }
  destruct Hraise as [->|(proc & -> & ->)].
  - exists []. rewrite add_log_nil. auto.
  - exists [Spawn (command self)]. auto.
Qed.

(** X21: after a call of [execute] whose command ran to its end, with
    whatever exit code, a second call less than [cooldown] after any
    instant [t0] not later than the recorded end of the first returns
    [False] and leaves the store, hence the log of launched commands, as
    it was. *)
Theorem execute_within_cooldown (self : RollbackEngine) (env1 env2 : ShellEnv)
    (st : Store) (proc : Process) (out : string * string) (t0 : Z) :
  enabled self = true →
  str_truthy (command self) = true →
  in_cooldown self env1 st = false →
  create_subprocess_shell env1 (command self) = Return proc →
  communicate proc = Return out →
  time_done env1 ≠ 0 →
  t0 ≤ time_done env1 →
  time_check env2 - t0 < cooldown self →
  _last_rollback (snd (execute self env1 st)) = Some (time_done env1) ∧
  execute self env2 (snd (execute self env1 st)) =
    (Return false, snd (execute self env1 st)).
Proof.
  intros Hen Hcmd Hcool Hproc Hcomm Hnz Hle Hsep.
  assert (execute self env1 st =
            (Return (bool_decide (returncode proc = 0)),
             add_log [Spawn (command self)]
               (set_last_rollback (Some (time_done env1)) st))) as ->.
  { unfold execute. rewrite Hen, Hcmd. simpl.
    unfold bind, get, try_except, lift, emit, modify, ret.
    rewrite Hcool, Hproc, Hcomm. by case_bool_decide. }
  simpl. split; [done|].
  unfold execute. rewrite Hen, Hcmd. simpl.
  unfold bind, get, ret, in_cooldown. simpl.
  rewrite bool_decide_eq_true_2 by done.
  by rewrite bool_decide_eq_true_2 by lia.
Qed.

(** C2 fails when the wait of the first call raises.  The engine, with a
    cooldown of 300 and no rollback recorded, launches its command at
    instant 1000 and the wait for it raises: the call returns [False] and
    records no instant.  A second call at instant 1010, less than the
    cooldown after the first, launches the command again and returns
    [True]: two launches within one cooldown. *)
Theorem execute_relaunches_after_failed_wait :
  execute engine (shell_wait_fails 1000) fresh =
    (Return false, mkStore ∅ None [Spawn "./rollback.sh"]) ∧
  time_check (shell_exits 0 1010) - time_check (shell_wait_fails 1000)
    < cooldown engine ∧
  execute engine (shell_exits 0 1010)
      (snd (execute engine (shell_wait_fails 1000) fresh)) =
    (Return true,
     mkStore ∅ (Some 1011) [Spawn "./rollback.sh"; Spawn "./rollback.sh"]) ∧
  spawn_count
    (log (snd (execute engine (shell_exits 0 1010)
                 (snd (execute engine (shell_wait_fails 1000) fresh))))) =
    2%nat.
Proof. repeat split; vm_compute; reflexivity. Qed.

(** C3 fails on the timestamp when the wait raises: the exception is
    caught and [execute] returns [False], but no instant is recorded as
    the last rollback, where the call whose command exits with code 1
    records the end of its wait. *)
Theorem execute_failed_wait_records_nothing :
  launch_raises engine (shell_wait_fails 1000)
    (OtherException "[Errno 5] Input/output error") ∧
  execute engine (shell_wait_fails 1000) fresh =
    (Return false, mkStore ∅ None [Spawn "./rollback.sh"]) ∧
  _last_rollback (snd (execute engine (shell_wait_fails 1000) fresh)) = None ∧
  _last_rollback (snd (execute engine (shell_exits 1 1000) fresh)) = Some 1001.
Proof.
  split; [|repeat split; vm_compute; reflexivity].
  right. by eexists.
Qed.

(** ** Counting escalations in the log *)

Lemma down_message_inj a b : down_message a = down_message b → a = b.
Proof. unfold down_message. intros H. by simplify_eq/=. Qed.

Lemma notify_calls_app s evs1 evs2 :
  notify_calls s (evs1 ++ evs2) = (notify_calls s evs1 + notify_calls s evs2)%nat.
Proof.
  induction evs1 as [|[m rs| | |] evs1 IH]; simpl; [done| |done..].
  rewrite IH. lia.
Qed.

Lemma notify_calls_quiet s evs : quiet evs → notify_calls s evs = 0%nat.
Proof. induction 1 as [|[] evs Hev _ IH]; simpl; done. Qed.

Lemma executes_after_quiet s cur evs rest :
  quiet evs →
  executes_after s cur (evs ++ rest) = executes_after s cur rest.
Proof. induction 1 as [|[] evs Hev _ IH]; simpl; done. Qed.

Lemma quiet_sink_posts self message results posts :
  posts ≡ₚ sink_posts self message results → quiet posts.
Proof.
  intros Hp. unfold quiet. rewrite Hp. unfold sink_posts.
  destruct (str_truthy _), (str_truthy _); simpl; repeat constructor.
Qed.

Lemma quiet_spawn_only evs self : spawn_only evs self → quiet evs.
Proof. intros [->| ->]; repeat constructor. Qed.

(** ** One result of a cycle *)

Lemma handle_result_run self env results i r st :
  let c := default 0 (failure_counts st !! service_name r) in
  ∃ st' evs,
    handle_result self env results i r st = (Return tt, st') ∧
    failure_counts st' =
      <[service_name r := next_count r c]> (failure_counts st) ∧
    log st' = log st ++ evs ∧
    if escalates self r c then escalation (service_name r) results evs
    else evs = [].
Proof.
  intros c. unfold handle_result, next_count, escalates.
  case_bool_decide as Hdown; simpl.
  - unfold bind at 1. unfold get_or_0, bind at 1. unfold get, ret.
    unfold bind at 1. unfold setitem, modify.
    unfold bind at 1. unfold getitem, bind at 1. unfold get. simpl.
    rewrite lookup_insert_eq. unfold ret. fold c.
    case_bool_decide as Hth.
    + unfold bind at 1. unfold emit, modify.
      set (st1 := add_log _ _).
      destruct (notify_run (notifier self) (sinks env i)
                  (down_message (service_name r)) results st1)
        as (posts & Hn & Hposts).
      unfold bind at 1. rewrite Hn.
      unfold bind at 1.
      set (st2 := add_log _ (add_log posts st1)).
      destruct (execute_run (rollback self) (shell env i) st2)
        as (b & t & spawns & He & Hspawns).
      unfold bind. rewrite He.
      eexists _, _. split; [reflexivity|]. split; [done|].
      split.
      * simpl. rewrite <- !app_assoc. reflexivity.
      * exists posts, spawns. simpl.
        eauto using quiet_sink_posts, quiet_spawn_only.
    + eexists _, []. split; [reflexivity|]. simpl.
      by rewrite app_nil_r.
  - unfold setitem, modify.
    eexists _, []. split; [reflexivity|]. simpl.
    by rewrite app_nil_r.
Qed.

(** ** One cycle *)

Lemma result_for_None s l : s ∉ service_name <$> l → result_for s l = None.
Proof.
  induction l as [|r l IH]; [done|]. rewrite fmap_cons, not_elem_of_cons.
  intros [Hne Hnin]. simpl. rewrite bool_decide_eq_false_2 by done. auto.
Qed.

Lemma result_for_Some s l r :
  result_for s l = Some r → r ∈ l ∧ service_name r = s.
Proof.
  induction l as [|r0 l IH]; [done|]. simpl. case_bool_decide as Hs.
  - intros [= <-]. split; [left|done].
  - intros [Hin Hn]%IH. split; [by right|done].
Qed.

Lemma result_for_elem l r :
  NoDup (service_name <$> l) → r ∈ l → result_for (service_name r) l = Some r.
Proof.
  induction l as [|r0 l IH]; intros Hnd Hin; [by apply elem_of_nil in Hin|].
  rewrite fmap_cons in Hnd. apply NoDup_cons in Hnd as [Hfresh Hnd].
  simpl. apply elem_of_cons in Hin as [->|Hin].
  - by rewrite bool_decide_eq_true_2.
  - rewrite bool_decide_eq_false_2; [by apply IH|].
    intros Heq. apply Hfresh. rewrite Heq. by apply list_elem_of_fmap_2.
Qed.

Lemma escalation_counts s s' results evs rest :
  escalation s' results evs →
  notify_calls s (evs ++ rest) =
    ((if bool_decide (s' = s) then 1 else 0) + notify_calls s rest)%nat ∧
  ∀ cur, executes_after s cur (evs ++ rest) =
    ((if bool_decide (s' = s) then 1 else 0) +
     executes_after s (bool_decide (s' = s)) rest)%nat.
Proof.
  intros (posts & spawns & -> & Hposts & Hspawns).
  assert (bool_decide (down_message s' = down_message s) = bool_decide (s' = s))
    as Hmsg.
  { apply bool_decide_ext. split; [apply down_message_inj|by intros ->]. }
  split.
  - simpl. rewrite Hmsg, <- app_assoc, notify_calls_app. simpl.
    rewrite notify_calls_app, !notify_calls_quiet by done. lia.
  - intros cur. simpl.
    rewrite Hmsg, <- app_assoc, executes_after_quiet by done. simpl.
    by rewrite executes_after_quiet.
Qed.

Lemma for_each_run self env results l i st :
  NoDup (service_name <$> l) →
  ∃ st' evs,
    for_each i l (handle_result self env results) st = (Return tt, st') ∧
    log st' = log st ++ evs ∧
    ∀ s, cycle_effect self s l st st' evs.
Proof.
  revert i st. induction l as [|r l IH]; intros i st Hnd.
  - exists st, []. split; [done|]. split; [by rewrite app_nil_r|].
    intros s. unfold cycle_effect. simpl. done.
  - rewrite fmap_cons in Hnd. apply NoDup_cons in Hnd as [Hfresh Hnd].
    destruct (handle_result_run self env results i r st)
      as (st1 & seg & Hrun1 & Hfc1 & Hlog1 & Hseg).
    destruct (IH (S i) st1 Hnd) as (st' & evs & Hrun & Hlog & Heff).
    exists st', (seg ++ evs). split; [|split].
    { simpl. unfold bind. by rewrite Hrun1. }
    { by rewrite Hlog, Hlog1, app_assoc. }
    intros s. specialize (Heff s). unfold cycle_effect in *. simpl.
    case_bool_decide as Hs.
    + subst s. rewrite result_for_None in Heff by done.
      destruct Heff as (Hfc & Hn & Hx).
      rewrite Hfc, Hfc1, lookup_insert_eq. split; [done|].
      destruct (escalates self r _).
      * destruct (escalation_counts (service_name r) _ _ _ evs Hseg)
          as [Hn' Hx'].
        rewrite Hn', Hn, bool_decide_eq_true_2 by done.
        split; [done|]. intros cur.
        by rewrite Hx', Hx, bool_decide_eq_true_2.
      * subst seg. simpl. done.
    + assert (failure_counts st1 !! s = failure_counts st !! s) as Hsame
        by (by rewrite Hfc1, lookup_insert_ne).
      rewrite Hsame in Heff.
      assert (notify_calls s (seg ++ evs) = notify_calls s evs ∧
              ∀ cur, executes_after s cur (seg ++ evs) =
                     executes_after s
                       (if escalates self r
                             (default 0 (failure_counts st !! service_name r))
                        then false else cur) evs) as [Hn' Hx'].
      { destruct (escalates self r _).
        - destruct (escalation_counts s _ _ _ evs Hseg) as [Hn' Hx'].
          rewrite Hn'. rewrite bool_decide_eq_false_2 by done.
          split; [done|]. intros cur. rewrite Hx'.
          by rewrite bool_decide_eq_false_2.
        - by subst seg. }
      rewrite Hn'. destruct (result_for s l) as [r'|].
      * destruct Heff as (Hfc & Hn & Hx). split; [done|]. split; [done|].
        intros cur. by rewrite Hx'.
      * destruct Heff as (Hfc & Hn & Hx). split; [done|]. split; [done|].
        intros cur. by rewrite Hx'.
Qed.

Lemma fmap_Return_inj {A} (l k : list A) :
  Return <$> l = Return <$> k → l = k.
Proof.
  revert k. induction l as [|a l IH]; intros [|b k] H; try done.
  rewrite !fmap_cons in H. injection H as -> H. f_equal. by apply IH.
Qed.

(** The probes do not read the store: in any store [check_all] returns
    the results [probed]. *)
Lemma check_all_probed self env st :
  check_all self env st = (Return (probed self env), st).
Proof.
  destruct (check_all_run self env st) as (results & Hrun & Hres).
  destruct (check_all_run self env (mkStore ∅ None []))
    as (results0 & Hrun0 & Hres0).
  unfold probed. rewrite Hrun0, Hrun. simpl. do 2 f_equal.
  apply fmap_Return_inj. by rewrite Hres, Hres0.
Qed.

Lemma check_all_is_probed self env st results :
  check_all self env st = (Return results, st) → results = probed self env.
Proof. rewrite check_all_probed. by intros [= <-]. Qed.

(** The loop over the results ends by returning. *)
Lemma for_each_returns self env results l i st :
  ∃ st', for_each i l (handle_result self env results) st = (Return tt, st').
Proof.
  revert i st. induction l as [|r l IH]; intros i st; [by eexists|].
  destruct (handle_result_run self env results i r st)
    as (st1 & seg & Hrun1 & _).
  destruct (IH (S i) st1) as (st2 & Hrun2).
  exists st2. simpl. unfold bind. by rewrite Hrun1.
Qed.

(** A cycle whose table renders, if it is to be printed, is its loop. *)
Lemma run_once_loop self env verbose st results st' :
  renders self env verbose →
  check_all self env st = (Return results, st) →
  for_each 0 results (handle_result self env results) st = (Return tt, st') →
  run_once self env verbose st = (Return results, st').
Proof.
  intros Hrenders Hall Hloop.
  apply check_all_is_probed in Hall as Hres. subst results.
  unfold run_once, bind. rewrite Hall.
  destruct verbose.
  - unfold _print_results, lift. rewrite Hrenders by done. by rewrite Hloop.
  - unfold ret at 1. by rewrite Hloop.
Qed.

(** A cycle that returns has rendered its table, if it had to, and gone
    through its loop. *)
Lemma run_once_inv self env verbose st results st' :
  run_once self env verbose st = (Return results, st') →
  check_all self env st = (Return results, st) ∧
  renders self env verbose ∧
  for_each 0 results (handle_result self env results) st = (Return tt, st').
Proof.
  intros Hrun. unfold run_once, bind in Hrun.
  rewrite check_all_probed in Hrun.
  destruct (for_each_returns self env (probed self env) (probed self env)
              0%nat st) as (st1 & Hloop).
  unfold renders. destruct verbose.
  - unfold _print_results, lift in Hrun.
    destruct (console_print env _) as [[]|e] eqn:Hprint; [|done].
    rewrite Hloop in Hrun. injection Hrun as <- <-.
    split; [apply check_all_probed|done].
  - unfold ret at 1 in Hrun. rewrite Hloop in Hrun. injection Hrun as <- <-.
    split; [apply check_all_probed|done].
Qed.

(** A cycle raises only when its table is printed and fails to render; it
    has then left the store as it was. *)
Lemma run_once_raise_inv self env verbose st e st' :
  run_once self env verbose st = (Raise e, st') →
  verbose = true ∧
  console_print env (add_row <$> probed self env) = Raise e ∧
  st' = st.
Proof.
  unfold run_once, bind. rewrite check_all_probed.
  destruct (for_each_returns self env (probed self env) (probed self env)
              0%nat st) as (st1 & Hloop).
  destruct verbose.
  - unfold _print_results, lift.
    destruct (console_print env _) as [[]|e']; [by rewrite Hloop|].
    by intros [= <- <-].
  - unfold ret at 1. by rewrite Hloop.
Qed.

Lemma run_once_raises self env st e :
  console_print env (add_row <$> probed self env) = Raise e →
  run_once self env true st = (Raise e, st).
Proof.
  intros Hprint. unfold run_once, bind. rewrite check_all_probed.
  unfold _print_results, lift. by rewrite Hprint.
Qed.

Lemma run_once_returns self env verbose st :
  renders self env verbose →
  ∃ results st',
    check_all self env st = (Return results, st) ∧
    run_once self env verbose st = (Return results, st').
Proof.
  intros Hrenders.
  destruct (for_each_returns self env (probed self env) (probed self env)
              0%nat st) as (st' & Hloop).
  exists (probed self env), st'. split; [apply check_all_probed|].
  apply run_once_loop; [done|apply check_all_probed|done].
Qed.

Lemma run_once_effect self env verbose st results st' :
  NoDup (name <$> services self) →
  run_once self env verbose st = (Return results, st') →
  ∃ evs,
    check_all self env st = (Return results, st) ∧
    log st' = log st ++ evs ∧
    ∀ s, cycle_effect self s results st st' evs.
Proof.
  intros Hnd (Hall & _ & Hloop)%run_once_inv.
  assert (NoDup (service_name <$> results)) as Hnd'
    by (by rewrite (check_all_names self env st)).
  destruct (for_each_run self env results results 0%nat st Hnd')
    as (st1 & evs & Hrun & Hlog & Heff).
  rewrite Hloop in Hrun. injection Hrun as <-. by exists evs.
Qed.

Lemma run_once_run self env verbose st :
  NoDup (name <$> services self) →
  renders self env verbose →
  ∃ results st' evs,
    check_all self env st = (Return results, st) ∧
    run_once self env verbose st = (Return results, st') ∧
    log st' = log st ++ evs ∧
    ∀ s, cycle_effect self s results st st' evs.
Proof.
  intros Hnd Hrenders.
  destruct (run_once_returns self env verbose st Hrenders)
    as (results & st' & _ & Hrun).
  destruct (run_once_effect self env verbose st results st' Hnd Hrun)
    as (evs & Hall & Hlog & Heff).
  by exists results, st', evs.
Qed.

(** C4: in a cycle over services with distinct names, whose table renders
    if it is to be printed, the counter of the service of each result
    becomes its former value plus one when the status of the result is
    [DOWN] and zero for any other status; the counters of other names are
    left as they were. *)
Theorem run_once_counters (self : DeployWatcher) (env : CycleEnv)
    (verbose : bool) (st : Store) :
  NoDup (name <$> services self) →
  renders self env verbose →
  ∃ results st',
    check_all self env st = (Return results, st) ∧
    run_once self env verbose st = (Return results, st') ∧
    (∀ r, r ∈ results →
       failure_counts st' !! service_name r =
         Some (if bool_decide (status r = DOWN)
               then default 0 (failure_counts st !! service_name r) + 1
               else 0)) ∧
    (∀ s, s ∉ service_name <$> results →
       failure_counts st' !! s = failure_counts st !! s).
Proof.
  intros Hnd Hrenders.
  destruct (run_once_run self env verbose st Hnd Hrenders)
    as (results & st' & evs & Hall & Hrun & _ & Heff).
  assert (NoDup (service_name <$> results)) as Hnd'
    by (by rewrite (check_all_names self env st)).
  exists results, st'. split; [done|]. split; [done|]. split.
  - intros r Hr. specialize (Heff (service_name r)).
    unfold cycle_effect in Heff. rewrite result_for_elem in Heff by done.
    by destruct Heff as [-> _].
  - intros s Hs. specialize (Heff s).
    unfold cycle_effect in Heff. rewrite result_for_None in Heff by done.
    by destruct Heff as [-> _].
Qed.

(** ** main *)

Lemma failed_nil results :
  filter (λ r, status r ≠ HEALTHY) results = [] ↔
  Forall (λ r, status r = HEALTHY) results.
Proof.
  induction results as [|r results IH]; [done|].
  rewrite filter_cons, Forall_cons. case_decide as Hr.
  - split; [done|]. by intros [? _].
  - rewrite IH. split; [by intros ?|by intros [_ ?]].
Qed.

Lemma main_once_run watcher env verbose st results st' :
  run_once watcher env true st = (Return results, st') →
  main true watcher env verbose true false st =
    (Return (SysExit (if bool_decide (Forall (λ r, status r = HEALTHY) results)
                      then 0 else 1)), st').
Proof.
  intros Hrun.
  unfold main. simpl. unfold bind. rewrite Hrun. unfold ret. do 2 f_equal.
  case_bool_decide as Hall.
  - apply failed_nil in Hall. by rewrite Hall.
  - destruct (filter _ results) eqn:Hf; [|done].
    by apply failed_nil in Hf.
Qed.

Lemma main_once_raises watcher env verbose st e :
  console_print env (add_row <$> probed watcher env) = Raise e →
  main true watcher env verbose true false st = (Raise e, st).
Proof.
  intros Hprint. unfold main. simpl. unfold bind.
  by rewrite (run_once_raises watcher env st e Hprint).
Qed.

(** C8 fails on a service whose name is a closing tag: with an existing
    configuration file and [--once], the only service, named [[/x]],
    answers its probe as expected, so every result of the cycle is
    [HEALTHY]; printing the table raises [MarkupError] before [sys.exit]
    is reached, the exception leaves [main], and the process ends with
    status 1 where the code meant to exit with 0. *)
Theorem main_once_markup_error :
  Forall (λ r, status r = HEALTHY) (probed tagged_watcher all_answering) ∧
  main true tagged_watcher all_answering false true false fresh =
    (Raise (OtherException
              "closing tag '[/x]' at position 0 doesn't match any open tag"),
     fresh) ∧
  exit_status
    (fst (main true tagged_watcher all_answering false true false fresh)) =
    Some 1.
Proof.
  split; [|split].
  - vm_compute. by repeat constructor.
  - by apply main_once_raises.
  - by rewrite (main_once_raises tagged_watcher all_answering false fresh
                  (OtherException
                     "closing tag '[/x]' at position 0 doesn't match any open tag")).
Qed.

(** ** Consecutive cycles *)

Section Cycles.
Variable self : DeployWatcher.
Variable world : nat → CycleEnv.
Variable verbose : bool.
Variable st0 : Store.

(** The loop goes on to cycle [k + n] when the cycles before it have
    returned, and stops where one of them raised. *)
Lemma run_cycles_snoc k n st :
  run_cycles self world verbose k (S n) st =
    match run_cycles self world verbose k n st with
    | (Return _, st') =>
        match run_once self (world (k + n)%nat) verbose st' with
        | (Return _, st'') => (Return tt, st'')
        | (Raise e, st'') => (Raise e, st'')
        end
    | (Raise e, st') => (Raise e, st')
    end.
Proof.
  revert k st. induction n as [|n IH]; intros k st.
  - cbn [run_cycles]. unfold bind, ret. rewrite Nat.add_0_r.
    by destruct (run_once _ _ _ st) as [[r|e] st1].
  - change (run_cycles self world verbose k (S (S n)) st) with
      (bind (run_once self (world k) verbose)
         (λ _, run_cycles self world verbose (S k) (S n)) st).
    change (run_cycles self world verbose k (S n) st) with
      (bind (run_once self (world k) verbose)
         (λ _, run_cycles self world verbose (S k) n) st).
    unfold bind.
    destruct (run_once self (world k) verbose st) as [[r|e] st1]; [|done].
    rewrite IH. by replace (k + S n)%nat with (S k + n)%nat by lia.
Qed.

Lemma ran_or_raised n :
  ran self world verbose st0 n ∨
  ∃ e, fst (run_cycles self world verbose 0 n st0) = Raise e.
Proof. unfold ran. destruct (fst _) as [[]|e]; eauto. Qed.

Lemma ran_S n results st' :
  ran self world verbose st0 n →
  run_once self (world n) verbose (store_after self world verbose st0 n) =
    (Return results, st') →
  ran self world verbose st0 (S n) ∧
  store_after self world verbose st0 (S n) = st'.
Proof.
  unfold ran, store_after. intros Hran Hrun. rewrite run_cycles_snoc.
  destruct (run_cycles self world verbose 0 n st0) as [[[]|e] st1]; [|done].
  simpl in *. by rewrite Hrun.
Qed.

Lemma ran_inv n :
  ran self world verbose st0 (S n) →
  ran self world verbose st0 n ∧
  ∃ results,
    run_once self (world n) verbose (store_after self world verbose st0 n) =
      (Return results, store_after self world verbose st0 (S n)).
Proof.
  unfold ran, store_after. rewrite run_cycles_snoc.
  destruct (run_cycles self world verbose 0 n st0) as [[[]|e] st1]; [|done].
  simpl.
  destruct (run_once _ _ _ st1) as [[results|e] st2] eqn:Hrun; [|done].
  intros _. split; [done|]. by exists results.
Qed.

(** Once a cycle has raised the store stays what it was: the cycle that
    raised changed nothing, and no later cycle is run. *)
Lemma stuck n e :
  fst (run_cycles self world verbose 0 (S n) st0) = Raise e →
  store_after self world verbose st0 (S n) =
    store_after self world verbose st0 n.
Proof.
  unfold store_after. rewrite run_cycles_snoc.
  destruct (run_cycles self world verbose 0 n st0) as [[[]|e'] st1]; [|done].
  simpl.
  destruct (run_once _ _ _ st1) as [[results|e'] st2] eqn:Hrun; [done|].
  intros _. by apply run_once_raise_inv in Hrun as (_ & _ & ->).
Qed.

Lemma stuck_events n e :
  fst (run_cycles self world verbose 0 (S n) st0) = Raise e →
  cycle_events self world verbose st0 n = [].
Proof.
  intros Hraise. unfold cycle_events. rewrite (stuck n e Hraise).
  by rewrite drop_all.
Qed.

Hypothesis Hnames : NoDup (name <$> services self).

Lemma cycle_run k :
  ran self world verbose st0 (S k) →
  ∃ evs,
    run_once self (world k) verbose (store_after self world verbose st0 k) =
      (Return (cycle_results self world verbose st0 k), store_after self world verbose st0 (S k)) ∧
    check_all self (world k) (store_after self world verbose st0 k) =
      (Return (cycle_results self world verbose st0 k), store_after self world verbose st0 k) ∧
    cycle_events self world verbose st0 k = evs ∧
    ∀ s, cycle_effect self s (cycle_results self world verbose st0 k)
           (store_after self world verbose st0 k) (store_after self world verbose st0 (S k)) evs.
Proof.
  intros (Hran & results & Hrun)%ran_inv.
  destruct (run_once_effect self (world k) verbose _ _ _ Hnames Hrun)
    as (evs & Hall & Hlog & Heff).
  exists evs. unfold cycle_results, cycle_events. rewrite Hrun. simpl.
  split; [done|]. split; [done|]. split; [|done].
  by rewrite Hlog, drop_app_length.
Qed.

Variable s : string.
Variable n : nat.
Hypothesis Hzero : default 0 (failure_counts st0 !! s) = 0.
Hypothesis Hdown : ∀ k, (k < n)%nat → down_in_cycle self world verbose st0 s k.

(** A cycle with a result has returned, so the cycles of the run have. *)
Lemma down_ran k : (k ≤ n)%nat → ran self world verbose st0 k.
Proof.
  induction k as [|k IH]; intros Hk; [done|].
  destruct (Hdown k) as (r & Hin & _); [lia|].
  unfold cycle_results in Hin.
  destruct (run_once self (world k) verbose
              (store_after self world verbose st0 k))
    as [[results|e] st'] eqn:Hrun.
  - apply (ran_S k results st'); [apply IH; lia|done].
  - simpl in Hin. by apply elem_of_nil in Hin.
Qed.

Lemma down_result k :
  (k < n)%nat →
  ∃ r, result_for s (cycle_results self world verbose st0 k) = Some r ∧ status r = DOWN.
Proof.
  intros Hk.
  destruct (cycle_run k) as (evs & _ & Hall & _); [apply down_ran; lia|].
  destruct (Hdown k Hk) as (r & Hin & <- & Hst).
  exists r. split; [|done]. apply result_for_elem; [|done].
  by rewrite (check_all_names self (world k) _ _ Hall).
Qed.

(** After [k] cycles of the run the counter of [s] is [k]. *)
Lemma counter_after k :
  (k ≤ n)%nat →
  default 0 (failure_counts (store_after self world verbose st0 k) !! s) = Z.of_nat k.
Proof.
  induction k as [|k IH]; intros Hk; [done|].
  destruct (down_result k) as (r & Hr & Hst); [lia|].
  destruct (cycle_run k) as (evs & _ & _ & _ & Heff); [by apply down_ran|].
  specialize (Heff s). unfold cycle_effect in Heff.
  rewrite Hr, IH in Heff by lia. destruct Heff as (-> & _).
  unfold next_count. rewrite bool_decide_eq_true_2 by done. simpl. lia.
Qed.

Lemma escalations_in_cycle k :
  (k < n)%nat →
  notify_calls s (cycle_events self world verbose st0 k) =
    (if bool_decide (threshold self ≤ Z.of_nat (S k)) then 1%nat else 0%nat) ∧
  remediation_attempts s (cycle_events self world verbose st0 k) =
    (if bool_decide (threshold self ≤ Z.of_nat (S k)) then 1%nat else 0%nat).
Proof.
  intros Hk.
  destruct (down_result k) as (r & Hr & Hst); [done|].
  destruct (cycle_run k) as (evs & _ & _ & -> & Heff);
    [apply down_ran; lia|].
  specialize (Heff s). unfold cycle_effect in Heff.
  rewrite Hr, counter_after in Heff by lia.
  destruct Heff as (_ & Hn & Hx).
  unfold remediation_attempts. rewrite Hn, Hx.
  unfold escalates. rewrite bool_decide_eq_true_2 by done. simpl.
  replace (Z.of_nat k + 1) with (Z.of_nat (S k)) by lia. done.
Qed.
End Cycles.

(** C1: over services with distinct names, when the counter of service [s]
    starts at zero and each of the first [n] cycles has a [DOWN] result for
    [s], cycle number [k + 1] makes no call of [notify] for [s] and no call
    of [execute] after one while [k + 1] is below the threshold, and
    exactly one call of each from the cycle that reaches the threshold on,
    in every cycle. *)
Theorem escalation_from_threshold (self : DeployWatcher)
    (world : nat → CycleEnv) (verbose : bool) (st0 : Store)
    (s : string) (n : nat) :
  NoDup (name <$> services self) →
  default 0 (failure_counts st0 !! s) = 0 →
  (∀ k, (k < n)%nat → down_in_cycle self world verbose st0 s k) →
  ∀ k, (k < n)%nat →
    default 0 (failure_counts (store_after self world verbose st0 (S k)) !! s)
      = Z.of_nat (S k) ∧
    notify_calls s (cycle_events self world verbose st0 k) =
      (if bool_decide (threshold self ≤ Z.of_nat (S k)) then 1%nat else 0%nat) ∧
    remediation_attempts s (cycle_events self world verbose st0 k) =
      (if bool_decide (threshold self ≤ Z.of_nat (S k)) then 1%nat else 0%nat).
Proof.
  intros Hnames Hzero Hdown k Hk. split.
  - apply (counter_after self world verbose st0 Hnames s n); [done..|lia].
  - by apply (escalations_in_cycle self world verbose st0 Hnames s n).
Qed.

(** ** Concrete runs *)

Example scenario_counters :
  (λ k, failure_counts (store_after api_watcher down_down_up false fresh k) !! "api")
    <$> [1; 2; 3]%nat = [Some 1; Some 2; Some 0].
Proof. vm_compute. reflexivity. Qed.

Example scenario_events :
  cycle_events api_watcher down_down_up false fresh <$> [0; 1; 2]%nat =
    [ [];
      [ CallNotify "Service DOWN: api"
          [mkCheckResult "api" DOWN 5000 None (Some "Timeout") 0];
        Post "https://hooks.slack.test/T0" "Service DOWN: api"
          [mkCheckResult "api" DOWN 5000 None (Some "Timeout") 0];
        CallExecute;
        Spawn "./rollback.sh" ];
      [] ].
Proof. vm_compute. reflexivity. Qed.

Example prober_cases :
  (λ env, fst (check env db fresh)) <$>
    [answered 200 "ping pong" 1; answered 200 "nope" 1;
     answered 503 "pong" 1; timing_out 5] =
    [ Return (mkCheckResult "db" HEALTHY 1000 (Some 200) None 0);
      Return (mkCheckResult "db" DEGRADED 1000 (Some 200) None 0);
      Return (mkCheckResult "db" DEGRADED 1000 (Some 503) None 0);
      Return (mkCheckResult "db" DOWN 5000 None (Some "Timeout") 0) ].
Proof. vm_compute. reflexivity. Qed.

Example db_first_order :
  completion_order (probe_tasks two_services db_first) = [1; 0]%nat ∧
  fst (check_all two_services db_first fresh) =
    Return [ mkCheckResult "api" HEALTHY 40000 (Some 200) None 0;
             mkCheckResult "db" HEALTHY 3000 (Some 200) None 0 ].
Proof. vm_compute. split; reflexivity. Qed.

(** A failing slack post does not keep the webhook post from being made. *)
Example slack_failure_isolated :
  notify both_sinks slack_failing "Service DOWN: api" [] fresh =
    (Return PyNone,
     mkStore ∅ None
       [ Post "https://hooks.slack.test/T0" "Service DOWN: api" [];
         Post "https://alerts.test/hook" "Service DOWN: api" [] ]).
Proof. vm_compute. reflexivity. Qed.

(** C1, on the watcher with threshold 2 whose only service is down in
    three cycles in a row. *)
Lemma escalation_from_threshold_witness :
  NoDup (name <$> services api_watcher) ∧
  default 0 (failure_counts fresh !! "api") = 0 ∧
  (∀ k, (k < 3)%nat → down_in_cycle api_watcher always_down false fresh "api" k) ∧
  ∀ k, (k < 3)%nat →
    default 0
      (failure_counts (store_after api_watcher always_down false fresh (S k))
         !! "api") = Z.of_nat (S k) ∧
    notify_calls "api" (cycle_events api_watcher always_down false fresh k) =
      (if bool_decide (threshold api_watcher ≤ Z.of_nat (S k))
       then 1%nat else 0%nat) ∧
    remediation_attempts "api"
      (cycle_events api_watcher always_down false fresh k) =
      (if bool_decide (threshold api_watcher ≤ Z.of_nat (S k))
       then 1%nat else 0%nat).
Proof.
  assert (NoDup (name <$> services api_watcher)) as Hnames
    by (apply NoDup_singleton).
  assert (∀ k, (k < 3)%nat →
            down_in_cycle api_watcher always_down false fresh "api" k)
    as Hdown.
  { intros k Hk.
    exists (mkCheckResult "api" DOWN 5000 None (Some "Timeout") 0).
    destruct k as [|[|[|k]]]; [| | |lia];
      (split; [vm_compute; left|split; reflexivity]). }
  split; [exact Hnames|]. split; [reflexivity|]. split; [exact Hdown|].
  exact (escalation_from_threshold api_watcher always_down false fresh "api" 3
           Hnames eq_refl Hdown).
Defined.

(** X21, on a first call whose command exits with code 1 at instant 1001
    and a second call at instant 1100, with a cooldown of 300. *)
Lemma execute_within_cooldown_witness :
  _last_rollback (snd (execute engine (shell_exits 1 1000) fresh)) = Some 1001 ∧
  execute engine (shell_exits 0 1100)
      (snd (execute engine (shell_exits 1 1000) fresh)) =
    (Return false, snd (execute engine (shell_exits 1 1000) fresh)).
Proof.
  apply (execute_within_cooldown engine (shell_exits 1 1000)
           (shell_exits 0 1100) fresh (mkProcess (Return ("", "")) 1)
           ("", "") 1000);
    try reflexivity; vm_compute; congruence.
Defined.

(** X22, on a shell that cannot launch the command. *)
Lemma execute_exception_caught_witness :
  launch_raises engine (shell_broken 1000)
    (OtherException "cannot allocate memory") ∧
  ∃ evs, execute engine (shell_broken 1000) fresh =
           (Return false, add_log evs fresh) ∧
         spawn_only evs engine ∧
         _last_rollback (snd (execute engine (shell_broken 1000) fresh)) =
           _last_rollback fresh.
Proof.
  assert (launch_raises engine (shell_broken 1000)
            (OtherException "cannot allocate memory")) as Hraise
    by (left; reflexivity).
  split; [exact Hraise|].
  exact (execute_exception_caught engine (shell_broken 1000) fresh _ Hraise).
Defined.

(** C4, on one cycle of the single-service watcher, its table printed. *)
Lemma run_once_counters_witness :
  NoDup (name <$> services api_watcher) ∧
  renders api_watcher (always_down 0) true ∧
  ∃ results st',
    check_all api_watcher (always_down 0) fresh = (Return results, fresh) ∧
    run_once api_watcher (always_down 0) true fresh = (Return results, st') ∧
    (∀ r, r ∈ results →
       failure_counts st' !! service_name r =
         Some (if bool_decide (status r = DOWN)
               then default 0 (failure_counts fresh !! service_name r) + 1
               else 0)) ∧
    (∀ s, s ∉ service_name <$> results →
       failure_counts st' !! s = failure_counts fresh !! s).
Proof.
  assert (NoDup (name <$> services api_watcher)) as Hnames
    by (apply NoDup_singleton).
  assert (renders api_watcher (always_down 0) true) as Hrenders
    by (intros _; vm_compute; reflexivity).
  split; [exact Hnames|]. split; [exact Hrenders|].
  exact (run_once_counters api_watcher (always_down 0) true fresh Hnames
           Hrenders).
Defined.

(** C10, on a service whose expected body is the empty string. *)
Lemma check_empty_expected_body_witness :
  expected_body (with_expected_body (Some "") api) = Some "" ∧
  check (answered 200 "ok" 1) (with_expected_body (Some "") api) fresh =
    check (answered 200 "ok" 1)
      (with_expected_body None (with_expected_body (Some "") api)) fresh ∧
  ∃ r, check (answered 200 "ok" 1) (with_expected_body (Some "") api) fresh =
         (Return r, fresh) ∧ status r = HEALTHY.
Proof.
  split; [reflexivity|].
  exact (check_empty_expected_body (answered 200 "ok" 1)
           (with_expected_body (Some "") api) fresh (mkResponse 200 "ok")
           eq_refl eq_refl eq_refl).
Defined.

(** A launch that fails records nothing either: a second call ten
    seconds later launches the command and returns [True]. *)
Example execute_relaunches_after_failed_launch :
  execute engine (shell_broken 1000) fresh = (Return false, fresh) ∧
  execute engine (shell_exits 0 1010)
      (snd (execute engine (shell_broken 1000) fresh)) =
    (Return true, mkStore ∅ (Some 1011) [Spawn "./rollback.sh"]).
Proof. split; vm_compute; reflexivity. Qed.

(** C6 fails on the returned value: with a sink configured, [notify]
    evaluates to [None], not to a list of outcomes. *)
Lemma notify_returns_none :
  fst (notify slack_only sinks_up "Service DOWN: api" [] fresh) = Return PyNone ∧
  ¬ ∃ items, fst (notify slack_only sinks_up "Service DOWN: api" [] fresh)
             = Return (PyList items).
Proof.
  split; [vm_compute; reflexivity|].
  intros [items Hitems]. vm_compute in Hitems. discriminate.
Qed.

(** * Further properties *)

(** ** Prober *)

Lemma append_cons c (a post : string) :
  String.append (String c a) post = String c (String.append a post).
Proof. reflexivity. Qed.

Lemma prefix_append (a b : string) :
  String.prefix a b = true ↔ ∃ post, b = String.append a post.
Proof.
  revert b. induction a as [|c a IH]; intros b.
  - split; [intros _; by exists b|by destruct b].
  - setoid_rewrite append_cons.
    destruct b as [|c' b]; simpl; [split; [done|by intros [post ?]]|].
    destruct (Ascii.ascii_dec c c') as [->|Hne].
    + rewrite IH. split; intros [post Hp]; exists post; congruence.
    + split; [done|]. intros [post Hp]. congruence.
Qed.

Lemma str_in_substring (needle hay : string) :
  str_in needle hay = true ↔
  ∃ pre post, hay = String.append pre (String.append needle post).
Proof.
  induction hay as [|c hay IH]; cbn [str_in].
  - rewrite orb_false_r, prefix_append. split.
    + intros [post Hp]. by exists "", post.
    + intros (pre & post & Hp). destruct pre as [|c pre]; [by exists post|done].
  - rewrite orb_true_iff, prefix_append, IH. split.
    + intros [[post Hp]|(pre & post & Hp)].
      * by exists "", post.
      * exists (String c pre), post. by rewrite append_cons, Hp.
    + intros (pre & post & Hp). destruct pre as [|c' pre].
      * left. by exists post.
      * right. exists pre, post. rewrite append_cons in Hp. congruence.
Qed.

Lemma check_status env service r st :
  check env service st = (Return r, st) →
  (status r = HEALTHY ↔ healthy_reply env service = true) ∧
  status r ≠ UNKNOWN ∧
  service_name r = name service ∧
  response_time_ms r = (monotonic_end env - monotonic_start env) * 1000 ∧
  timestamp r = utcnow env.
Proof.
  unfold check, healthy_reply, try_except, bind, lift, ret.
  destruct (request env _ _ _) as [response|[m|m]]; simpl;
    intros [= <-]; simpl; [|done..].
  split; [|split; [|done]].
  - destruct (decide (resp_status_code response = expected_status service))
      as [Hcode|Hcode].
    + rewrite bool_decide_eq_false_2 by (by intros ?).
      rewrite bool_decide_eq_true_2 by done. simpl.
      destruct (expected_body service) as [expected|]; [|done].
      destruct (str_truthy expected) eqn:Ht; simpl.
      * by destruct (str_in expected (text response)).
      * apply str_truthy_false in Ht as ->. by rewrite str_in_empty.
    + rewrite bool_decide_eq_true_2 by done.
      rewrite bool_decide_eq_false_2 by done. simpl.
      destruct (expected_body service) as [expected|]; [|done].
      by destruct (_ && _).
  - destruct (expected_body service) as [expected|].
    + destruct (_ && _); [done|]. by case_bool_decide.
    + by case_bool_decide.
Qed.

Lemma check_total env service st : ∃ r, check env service st = (Return r, st).
Proof.
  rewrite check_pure.
  destruct (check_returns env service) as (r & -> & _). by exists r.
Qed.

(** X1: every result of [check], also one for a failed request, bears the
    name of the service probed, the time elapsed between the two clock
    readings in milliseconds and the stamp of the call, and its status is
    never [UNKNOWN]. *)
Theorem check_labels_result (env : ProbeEnv) (service : ServiceConfig)
    (st : Store) :
  ∃ r, check env service st = (Return r, st) ∧
    service_name r = name service ∧
    response_time_ms r = (monotonic_end env - monotonic_start env) * 1000 ∧
    timestamp r = utcnow env ∧
    status r ≠ UNKNOWN.
Proof.
  destruct (check_total env service st) as [r Hr]. exists r.
  destruct (check_status env service r st Hr) as (_ & ? & ? & ? & ?). done.
Qed.

(** X2: [check] reports [HEALTHY] exactly when a response arrived, its
    status code is the expected one and, if an expected body is configured,
    the response text is some text, the expected body, some text. *)
Theorem check_healthy_iff (env : ProbeEnv) (service : ServiceConfig)
    (st : Store) :
  ∃ r, check env service st = (Return r, st) ∧
    (status r = HEALTHY ↔
     ∃ response,
       request env (method service) (url service) (headers service)
         = Return response ∧
       resp_status_code response = expected_status service ∧
       (expected_body service = None ∨
        ∃ expected pre post,
          expected_body service = Some expected ∧
          text response = String.append pre (String.append expected post))).
Proof.
  destruct (check_total env service st) as [r Hr]. exists r.
  split; [done|].
  destruct (check_status env service r st Hr) as (-> & _).
  unfold healthy_reply.
  destruct (request env _ _ _) as [response|e].
  - rewrite andb_true_iff, bool_decide_eq_true. split.
    + intros [Hcode Hbody]. exists response. split; [done|]. split; [done|].
      destruct (expected_body service) as [expected|]; [right|by left].
      apply str_in_substring in Hbody as (pre & post & Htext).
      by exists expected, pre, post.
    + intros (response' & [= <-] & Hcode & Hbody). split; [done|].
      destruct Hbody as [->|(expected & pre & post & -> & Htext)]; [done|].
      apply str_in_substring. by exists pre, post.
  - split; [done|]. by intros (response & ? & _).
Qed.

(** ** RollbackEngine *)

(** X3: a disabled engine, or one without a command, returns [False] and
    does nothing, whatever the store and the shell. *)
Theorem execute_disabled (self : RollbackEngine) (env : ShellEnv) (st : Store) :
  enabled self = false ∨ str_truthy (command self) = false →
  execute self env st = (Return false, st).
Proof.
  intros [H|H]; unfold execute; rewrite H; [done|].
  by destruct (enabled self).
Qed.

Lemma execute_launch self env st :
  enabled self = true →
  str_truthy (command self) = true →
  in_cooldown self env st = false →
  execute self env st =
    match create_subprocess_shell env (command self) with
    | Raise _ => (Return false, st)
    | Return proc =>
        match communicate proc with
        | Raise _ => (Return false, add_log [Spawn (command self)] st)
        | Return _ =>
            (Return (bool_decide (returncode proc = 0)),
             add_log [Spawn (command self)]
               (set_last_rollback (Some (time_done env)) st))
        end
    end.
Proof.
  intros Hen Hcmd Hcool. unfold execute. rewrite Hen, Hcmd. simpl.
  unfold bind, get, try_except, lift, emit, modify, ret. rewrite Hcool.
  destruct (create_subprocess_shell env (command self)) as [proc|e]; [|done].
  destruct (communicate proc) as [out|e]; [|done]. by case_bool_decide.
Qed.

Lemma execute_blocked self env st :
  enabled self = false ∨ str_truthy (command self) = false ∨
  in_cooldown self env st = true →
  execute self env st = (Return false, st).
Proof.
  intros [H|[H|H]]; unfold execute.
  - by rewrite H.
  - rewrite H. by destruct (enabled self).
  - destruct (negb _ || negb _); [done|].
    unfold bind, get, ret. by rewrite H.
Qed.

(** X4: [execute] returns [True] exactly when the engine is enabled with a
    command, no cooldown holds it back, the command is launched and waited
    for and exits with code 0; it has then launched the command once and
    recorded the end of the wait as the last rollback. *)
Theorem execute_true_iff (self : RollbackEngine) (env : ShellEnv) (st : Store) :
  (fst (execute self env st) = Return true ↔
   enabled self = true ∧ str_truthy (command self) = true ∧
   in_cooldown self env st = false ∧
   ∃ proc out,
     create_subprocess_shell env (command self) = Return proc ∧
     communicate proc = Return out ∧ returncode proc = 0) ∧
  (fst (execute self env st) = Return true →
   snd (execute self env st) =
     add_log [Spawn (command self)]
       (set_last_rollback (Some (time_done env)) st)).
Proof.
  assert (∀ P Q : Prop, (P → False) →
            (Return false = Return true ↔ P) ∧
            (@Return bool false = Return true → Q)) as Hno
    by (intros P Q HP; split; [split|]; [done|by intros ?%HP|done]).
  destruct (enabled self) eqn:Hen;
    [|rewrite execute_blocked by auto; apply Hno; by intros (? & _)].
  destruct (str_truthy (command self)) eqn:Hcmd;
    [|rewrite execute_blocked by auto; apply Hno; by intros (_ & ? & _)].
  destruct (in_cooldown self env st) eqn:Hcool;
    [rewrite execute_blocked by auto; apply Hno; by intros (_ & _ & ? & _)|].
  rewrite execute_launch by done.
  destruct (create_subprocess_shell env (command self)) as [proc|e];
    [|apply Hno; by intros (_ & _ & _ & ? & ? & ? & _)].
  destruct (communicate proc) as [out|e] eqn:Hcomm;
    [|apply Hno; intros (_ & _ & _ & ? & ? & [= <-] & ? & _); congruence].
  simpl. split; [|done]. split.
  - intros [= Hrc]. apply bool_decide_eq_true in Hrc.
    repeat split; [done..|]. by exists proc, out.
  - intros (_ & _ & _ & proc' & out' & [= <-] & _ & Hrc).
    by rewrite bool_decide_eq_true_2.
Qed.

(** X5: once the cooldown has elapsed since the last recorded rollback, an
    enabled engine launches its command again. *)
Theorem execute_after_cooldown (self : RollbackEngine) (env : ShellEnv)
    (st : Store) (last : Z) (proc : Process) (out : string * string) :
  enabled self = true →
  str_truthy (command self) = true →
  _last_rollback st = Some last →
  cooldown self ≤ time_check env - last →
  create_subprocess_shell env (command self) = Return proc →
  communicate proc = Return out →
  execute self env st =
    (Return (bool_decide (returncode proc = 0)),
     add_log [Spawn (command self)]
       (set_last_rollback (Some (time_done env)) st)).
Proof.
  intros Hen Hcmd Hlast Hgap Hproc Hout.
  rewrite execute_launch, Hproc, Hout; [done..|].
  unfold in_cooldown. rewrite Hlast.
  case_bool_decide; [|done]. by rewrite bool_decide_eq_false_2 by lia.
Qed.

(** X6: a call of [execute] never raises, launches the command at most
    once, leaves the failure counters alone, and either keeps the recorded
    last rollback or sets it to the end of its own wait. *)
Theorem execute_effects (self : RollbackEngine) (env : ShellEnv) (st : Store) :
  ∃ b, fst (execute self env st) = Return b ∧
    failure_counts (snd (execute self env st)) = failure_counts st ∧
    (log (snd (execute self env st)) = log st ∨
     log (snd (execute self env st)) = log st ++ [Spawn (command self)]) ∧
    (_last_rollback (snd (execute self env st)) = _last_rollback st ∨
     _last_rollback (snd (execute self env st)) = Some (time_done env) ∧
     log (snd (execute self env st)) = log st ++ [Spawn (command self)]).
Proof.
  destruct (enabled self) eqn:Hen;
    [|rewrite execute_blocked by auto; exists false; auto].
  destruct (str_truthy (command self)) eqn:Hcmd;
    [|rewrite execute_blocked by auto; exists false; auto].
  destruct (in_cooldown self env st) eqn:Hcool;
    [rewrite execute_blocked by auto; exists false; auto|].
  rewrite execute_launch by done.
  destruct (create_subprocess_shell env (command self)) as [proc|e];
    [|exists false; auto].
  destruct (communicate proc) as [out|e]; [|exists false; simpl; auto].
  exists (bool_decide (returncode proc = 0)). simpl. auto 10.
Qed.

(** ** The loop over the results *)

Lemma handle_result_step self env results i r st :
  let c := counter st (service_name r) in
  let st1 := set_failure_counts
               (<[service_name r := next_count r c]> (failure_counts st)) st in
  (escalates self r c = false ∧
   handle_result self env results i r st = (Return tt, st1)) ∨
  (escalates self r c = true ∧
   ∃ posts,
     posts ≡ₚ sink_posts (notifier self)
                (down_message (service_name r)) results ∧
     handle_result self env results i r st =
       (Return tt,
        snd (execute (rollback self) (shell env i)
               (add_log
                  (CallNotify (down_message (service_name r)) results
                     :: posts ++ [CallExecute]) st1)))).
Proof.
  intros c st1. subst st1. unfold counter in c.
  unfold escalates, next_count.
  destruct (decide (status r = DOWN)) as [Hdown|Hdown].
  - rewrite !bool_decide_eq_true_2 by done. simpl.
    assert (handle_result self env results i r st =
              (if bool_decide (threshold self ≤ c + 1) then
                 emit (CallNotify (down_message (service_name r)) results);;;
                 _ <- notify (notifier self) (sinks env i)
                        (down_message (service_name r)) results;;
                 emit CallExecute;;;
                 _ <- execute (rollback self) (shell env i);;
                 ret tt
               else ret tt)
                (set_failure_counts
                   (<[service_name r := c + 1]> (failure_counts st)) st))
      as ->.
    { unfold handle_result. rewrite bool_decide_eq_true_2 by done.
      unfold bind at 1. unfold get_or_0, bind at 1. unfold get, ret.
      unfold bind at 1. unfold setitem, modify.
      unfold bind at 1. unfold getitem, bind at 1. unfold get. simpl.
      by rewrite lookup_insert_eq. }
    case_bool_decide as Hth; [right|by left].
    split; [done|].
    unfold bind at 1. unfold emit, modify.
    set (st1 := add_log _ _).
    destruct (notify_run (notifier self) (sinks env i)
                (down_message (service_name r)) results st1)
      as (posts & Hn & Hposts).
    exists posts. split; [done|].
    unfold bind at 1. rewrite Hn.
    unfold bind at 1.
    set (st2 := add_log _ (add_log posts st1)).
    destruct (execute_run (rollback self) (shell env i) st2)
      as (b & t & spawns & He & Hspawns).
    unfold bind. rewrite He. unfold ret. f_equal.
    subst st2 st1. rewrite !add_log_app in *. simpl in *.
    by rewrite He.
  - rewrite !bool_decide_eq_false_2 by done. simpl. left. split; [done|].
    unfold handle_result. rewrite bool_decide_eq_false_2 by done.
    by unfold setitem, modify.
Qed.

Lemma set_last_rollback_same st : set_last_rollback (_last_rollback st) st = st.
Proof. by destruct st. Qed.

Lemma in_cooldown_last self env st st' :
  _last_rollback st' = _last_rollback st →
  in_cooldown self env st' = in_cooldown self env st.
Proof. unfold in_cooldown. by intros ->. Qed.

Lemma execute_effect_run self env st :
  ∃ xevs t, execute_effect self env st xevs t ∧
    ∀ st', _last_rollback st' = _last_rollback st →
      ∃ b, execute self env st' =
             (Return b, add_log xevs (set_last_rollback t st')).
Proof.
  unfold execute_effect.
  destruct (enabled self) eqn:Hen; simpl.
  2:{ exists [], (_last_rollback st). split; [done|]. intros st' Hst'.
      exists false. rewrite execute_blocked by auto.
      by rewrite <- Hst', set_last_rollback_same, add_log_nil. }
  destruct (str_truthy (command self)) eqn:Hcmd; simpl.
  2:{ exists [], (_last_rollback st). split; [done|]. intros st' Hst'.
      exists false. rewrite execute_blocked by auto.
      by rewrite <- Hst', set_last_rollback_same, add_log_nil. }
  destruct (in_cooldown self env st) eqn:Hcool.
  { exists [], (_last_rollback st). split; [done|]. intros st' Hst'.
    exists false. rewrite execute_blocked
      by (rewrite (in_cooldown_last self env st st') by done; auto).
    by rewrite <- Hst', set_last_rollback_same, add_log_nil. }
  destruct (create_subprocess_shell env (command self)) as [proc|e] eqn:Hproc.
  - eexists _, _. split; [done|]. intros st' Hst'.
    rewrite execute_launch, Hproc
      by (rewrite ?(in_cooldown_last self env st st') by done; done).
    destruct (communicate proc) as [out|e]; eexists; [done|].
    by rewrite <- Hst', set_last_rollback_same.
  - exists [], (_last_rollback st). split; [done|]. intros st' Hst'.
    rewrite execute_launch, Hproc
      by (rewrite ?(in_cooldown_last self env st st') by done; done).
    exists false. by rewrite <- Hst', set_last_rollback_same, add_log_nil.
Qed.

Lemma handle_result_effect self env results i r st :
  let c := counter st (service_name r) in
  ∃ evs t,
    handle_result self env results i r st =
      (Return tt,
       add_log evs
         (set_last_rollback t
            (set_failure_counts
               (<[service_name r := next_count r c]> (failure_counts st)) st)))
    ∧
    if escalates self r c then
      ∃ posts xevs,
        posts ≡ₚ sink_posts (notifier self)
                   (down_message (service_name r)) results ∧
        execute_effect (rollback self) (shell env i) st xevs t ∧
        evs = CallNotify (down_message (service_name r)) results
                :: posts ++ CallExecute :: xevs
    else evs = [] ∧ t = _last_rollback st.
Proof.
  intros c.
  destruct (handle_result_step self env results i r st)
    as [[Hesc Hrun]|(Hesc & posts & Hposts & Hrun)]; fold c in Hesc; rewrite Hesc.
  - exists [], (_last_rollback st). split; [|done].
    rewrite Hrun. f_equal. fold c.
    by rewrite add_log_nil, <- (set_last_rollback_same (set_failure_counts _ st)) at 1.
  - destruct (execute_effect_run (rollback self) (shell env i) st)
      as (xevs & t & Heff & Hexec).
    exists (CallNotify (down_message (service_name r)) results
              :: posts ++ CallExecute :: xevs), t.
    split; [|by exists posts, xevs].
    rewrite Hrun. f_equal. fold c.
    set (st2 := add_log _ _).
    destruct (Hexec st2) as [b ->]; [done|]. simpl.
    subst st2. unfold add_log, set_last_rollback. simpl. f_equal.
    rewrite <- !app_assoc. simpl. by rewrite <- app_assoc.
Qed.

Lemma counter_insert st s s' v t evs :
  counter (add_log evs (set_last_rollback t
             (set_failure_counts (<[s' := v]> (failure_counts st)) st))) s =
    if bool_decide (s' = s) then v else counter st s.
Proof.
  unfold counter. simpl. case_bool_decide as Hs.
  - subst. by rewrite lookup_insert_eq.
  - by rewrite lookup_insert_ne.
Qed.

Lemma sink_posts_allowed self results r posts :
  r ∈ results →
  posts ≡ₚ sink_posts (notifier self) (down_message (service_name r)) results →
  Forall (allowed self results) posts.
Proof.
  intros Hr Hp. rewrite Hp. unfold sink_posts.
  apply Forall_app. split.
  - destruct (str_truthy (slack_url (notifier self))) eqn:Hs; [|done].
    constructor; [|done]. simpl. by auto.
  - destruct (str_truthy (webhook_url (notifier self))) eqn:Hw; [|done].
    constructor; [|done]. simpl. by auto.
Qed.

Lemma execute_effect_allowed self results env st xevs t :
  execute_effect (rollback self) env st xevs t →
  Forall (allowed self results) xevs ∧
  (xevs = [] ∨ xevs = [Spawn (command (rollback self))]).
Proof.
  unfold execute_effect.
  destruct (enabled (rollback self)) eqn:Hen; simpl;
    [|intros [-> _]; by auto].
  destruct (str_truthy (command (rollback self))) eqn:Hcmd; simpl;
    [|intros [-> _]; by auto].
  destruct (in_cooldown _ _ _); [intros [-> _]; by auto|].
  destruct (create_subprocess_shell _ _); intros [-> _]; [|by auto].
  split; [|by right]. constructor; [by repeat split|done].
Qed.

Lemma for_each_allowed self env results l i st :
  l ⊆ results →
  ∃ st' evs,
    for_each i l (handle_result self env results) st = (Return tt, st') ∧
    log st' = log st ++ evs ∧
    Forall (allowed self results) evs ∧
    (∀ s, counter st' s = count_through (named s l) (counter st s)) ∧
    dom (failure_counts st') =
      dom (failure_counts st) ∪ list_to_set (service_name <$> l).
Proof.
  revert i st. induction l as [|r l IH]; intros i st Hsub.
  - exists st, []. split; [done|]. split; [by rewrite app_nil_r|].
    split; [done|]. split; [done|].
    by rewrite fmap_nil, list_to_set_nil, (right_id_L ∅ (∪)).
  - destruct (handle_result_effect self env results i r st)
      as (seg & t & Hrun1 & Hseg).
    set (st1 := add_log seg _) in Hrun1.
    destruct (IH (S i) st1) as (st' & evs & Hrun & Hlog & Hall & Hcnt & Hdom).
    { intros x Hx. apply Hsub. by right. }
    exists st', (seg ++ evs). split; [|split; [|split; [|split]]].
    + simpl. unfold bind. by rewrite Hrun1.
    + rewrite Hlog. subst st1. simpl. by rewrite app_assoc.
    + apply Forall_app. split; [|done].
      destruct (escalates self r _) eqn:Hesc; [|by destruct Hseg as [-> _]].
      destruct Hseg as (posts & xevs & Hposts & Heff & ->).
      assert (r ∈ results) as Hr by (apply Hsub; left).
      apply andb_true_iff in Hesc as [Hdown%bool_decide_eq_true _].
      constructor; [simpl; by eauto|].
      apply Forall_app. split; [by eapply sink_posts_allowed|].
      constructor; [done|].
      by eapply execute_effect_allowed.
    + intros s. rewrite Hcnt. subst st1. rewrite counter_insert.
      unfold named. rewrite filter_cons. case_bool_decide as Hs.
      * rewrite decide_True by done. subst s. done.
      * by rewrite decide_False.
    + rewrite Hdom. subst st1. cbn [failure_counts add_log set_last_rollback set_failure_counts].
      rewrite dom_insert_L, fmap_cons, list_to_set_cons.
      by rewrite (comm_L (∪) {[_]} (dom _)), !(assoc_L (∪)).
Qed.

Lemma calls_only_app evs1 evs2 :
  calls_only (evs1 ++ evs2) = calls_only evs1 ++ calls_only evs2.
Proof.
  induction evs1 as [|[] evs1 IH]; simpl; [done|by rewrite IH|done|
    by rewrite IH|done].
Qed.

Lemma sink_posts_are_posts self m results posts :
  posts ≡ₚ sink_posts self m results →
  Forall (λ ev, ∃ u m rs, ev = Post u m rs) posts.
Proof.
  intros Hp. rewrite Hp. unfold sink_posts.
  destruct (str_truthy _), (str_truthy _); repeat constructor; eauto.
Qed.

Lemma calls_only_posts self m results posts :
  posts ≡ₚ sink_posts self m results → calls_only posts = [].
Proof.
  intros Hall%sink_posts_are_posts.
  induction Hall as [|ev posts' (u & m' & rs & ->) _ IH]; [done|]. by simpl.
Qed.

Lemma spawn_count_app evs1 evs2 :
  spawn_count (evs1 ++ evs2) = (spawn_count evs1 + spawn_count evs2)%nat.
Proof.
  induction evs1 as [|[] evs1 IH]; simpl; [done..|by rewrite IH].
Qed.

Lemma spawn_count_posts self m results posts :
  posts ≡ₚ sink_posts self m results → spawn_count posts = 0%nat.
Proof.
  intros Hall%sink_posts_are_posts.
  induction Hall as [|ev posts' (u & m' & rs & ->) _ IH]; [done|]. by simpl.
Qed.

Lemma for_each_calls self env results l i st :
  NoDup (service_name <$> l) →
  ∃ st' evs,
    for_each i l (handle_result self env results) st = (Return tt, st') ∧
    log st' = log st ++ evs ∧
    calls_only evs = l ≫= calls_for self results st.
Proof.
  revert i st. induction l as [|r l IH]; intros i st Hnd.
  - exists st, []. split; [done|]. split; [by rewrite app_nil_r|done].
  - rewrite fmap_cons in Hnd. apply NoDup_cons in Hnd as [Hfresh Hnd].
    destruct (handle_result_effect self env results i r st)
      as (seg & t & Hrun1 & Hseg).
    set (st1 := add_log seg _) in Hrun1.
    destruct (IH (S i) st1 Hnd) as (st' & evs & Hrun & Hlog & Hcalls).
    exists st', (seg ++ evs). split; [|split].
    + simpl. unfold bind. by rewrite Hrun1.
    + rewrite Hlog. subst st1. simpl. by rewrite app_assoc.
    + rewrite calls_only_app, Hcalls, bind_cons. f_equal.
      * unfold calls_for. destruct (escalates self r _).
        -- destruct Hseg as (posts & xevs & Hposts & Heff & ->).
           simpl. rewrite calls_only_app. simpl.
           rewrite (calls_only_posts _ _ _ _ Hposts). simpl. f_equal.
           apply (execute_effect_allowed self results) in Heff
             as [_ [->| ->]]; done.
        -- by destruct Hseg as [-> _].
      * apply Forall_bind_ext, Forall_forall. intros r' Hr'. unfold calls_for.
        subst st1. rewrite counter_insert.
        rewrite bool_decide_eq_false_2; [done|].
        intros Heq. apply Hfresh. rewrite Heq.
        by apply list_elem_of_fmap_2.
Qed.

Section OneRollback.
Variable self : DeployWatcher.
Variable env : CycleEnv.
Variable results : list CheckResult.
Hypothesis Hwaits : waits_return (rollback self) env.
Hypothesis Hwithin : within_cooldown (rollback self) env.

Lemma hot_in_cooldown st i :
  hot env st → in_cooldown (rollback self) (shell env i) st = true.
Proof.
  intros [j Hj]. unfold in_cooldown. rewrite Hj.
  destruct (Hwithin j i) as [Hnz Hlt].
  by rewrite !bool_decide_eq_true_2.
Qed.

Lemma for_each_hot l i st :
  hot env st →
  ∃ st' evs,
    for_each i l (handle_result self env results) st = (Return tt, st') ∧
    log st' = log st ++ evs ∧ spawn_count evs = 0%nat.
Proof.
  revert i st. induction l as [|r l IH]; intros i st Hhot.
  - exists st, []. split; [done|]. split; [by rewrite app_nil_r|done].
  - destruct (handle_result_effect self env results i r st)
      as (seg & t & Hrun1 & Hseg).
    set (st1 := add_log seg _) in Hrun1.
    assert (t = _last_rollback st ∧ spawn_count seg = 0%nat) as [-> Hseg0].
    { destruct (escalates self r _); [|by destruct Hseg as [-> ->]].
      destruct Hseg as (posts & xevs & Hposts & Heff & ->).
      unfold execute_effect in Heff.
      rewrite hot_in_cooldown, orb_true_r in Heff by done.
      destruct Heff as [-> ->]. split; [done|]. simpl.
      rewrite spawn_count_app. simpl.
      by rewrite (spawn_count_posts _ _ _ _ Hposts). }
    destruct (IH (S i) st1) as (st' & evs & Hrun & Hlog & Hevs); [done|].
    exists st', (seg ++ evs). split; [|split].
    + simpl. unfold bind. by rewrite Hrun1.
    + rewrite Hlog. subst st1. simpl. by rewrite app_assoc.
    + rewrite spawn_count_app. lia.
Qed.

Lemma for_each_spawns l i st :
  ∃ st' evs,
    for_each i l (handle_result self env results) st = (Return tt, st') ∧
    log st' = log st ++ evs ∧ (spawn_count evs ≤ 1)%nat.
Proof.
  revert i st. induction l as [|r l IH]; intros i st.
  - exists st, []. split; [done|]. split; [by rewrite app_nil_r|simpl; lia].
  - destruct (handle_result_effect self env results i r st)
      as (seg & t & Hrun1 & Hseg).
    set (st1 := add_log seg _) in Hrun1.
    assert (spawn_count seg = 0%nat ∨ spawn_count seg = 1%nat ∧ hot env st1)
      as Hcases.
    { destruct (escalates self r _); [|destruct Hseg as [-> _]; by left].
      destruct Hseg as (posts & xevs & Hposts & Heff & ->).
      simpl. rewrite spawn_count_app, (spawn_count_posts _ _ _ _ Hposts).
      simpl. unfold execute_effect in Heff.
      destruct (_ || _ || _); [destruct Heff as [-> _]; by left|].
      destruct (create_subprocess_shell _ _) as [proc|e] eqn:Hproc;
        [|destruct Heff as [-> _]; by left].
      destruct Heff as [-> Ht]. right. split; [done|].
      destruct (Hwaits i proc Hproc) as [out Hout]. rewrite Hout in Ht.
      exists i. subst st1. simpl. done. }
    destruct Hcases as [Hseg0|[Hseg1 Hhot]].
    + destruct (IH (S i) st1) as (st' & evs & Hrun & Hlog & Hevs).
      exists st', (seg ++ evs). split; [|split].
      * simpl. unfold bind. by rewrite Hrun1.
      * rewrite Hlog. subst st1. simpl. by rewrite app_assoc.
      * rewrite spawn_count_app. lia.
    + destruct (for_each_hot l (S i) st1 Hhot)
        as (st' & evs & Hrun & Hlog & Hevs).
      exists st', (seg ++ evs). split; [|split].
      * simpl. unfold bind. by rewrite Hrun1.
      * rewrite Hlog. subst st1. simpl. by rewrite app_assoc.
      * rewrite spawn_count_app. lia.
Qed.
End OneRollback.

(** ** One cycle, and main *)

(** X7: in a cycle over services with distinct names, whose table renders
    if it is to be printed, the calls of [notify] for the service of a
    result and the calls of [execute] that follow them number one each
    when the result is [DOWN] and its counter, raised by one, has reached
    the threshold, and none otherwise; the counter may start anywhere. *)
Theorem run_once_escalation_rule (self : DeployWatcher) (env : CycleEnv)
    (verbose : bool) (st : Store) :
  NoDup (name <$> services self) →
  renders self env verbose →
  ∃ results st' evs,
    run_once self env verbose st = (Return results, st') ∧
    log st' = log st ++ evs ∧
    ∀ r, r ∈ results →
      notify_calls (service_name r) evs =
        (if bool_decide (status r = DOWN ∧
                         threshold self ≤ counter st (service_name r) + 1)
         then 1%nat else 0%nat) ∧
      remediation_attempts (service_name r) evs =
        notify_calls (service_name r) evs.
Proof.
  intros Hnd Hrenders.
  destruct (run_once_run self env verbose st Hnd Hrenders)
    as (results & st' & evs & Hall & Hrun & Hlog & Heff).
  assert (NoDup (service_name <$> results)) as Hnd'
    by (by rewrite (check_all_names self env st)).
  exists results, st', evs. split; [done|]. split; [done|].
  intros r Hr. specialize (Heff (service_name r)).
  unfold cycle_effect in Heff. rewrite result_for_elem in Heff by done.
  destruct Heff as (_ & Hn & Hx). unfold remediation_attempts.
  rewrite Hn, Hx. split; [|done]. unfold escalates, counter.
  by rewrite bool_decide_and.
Qed.

(** X8: whatever the names of the services, a cycle whose table renders
    if it is to be printed takes the counter of every name through the
    results that bear that name, in order: plus one for a [DOWN] result,
    back to zero for any other.  Two services of one name thus share one
    counter. *)
Theorem run_once_counts_by_name (self : DeployWatcher) (env : CycleEnv)
    (verbose : bool) (st : Store) :
  renders self env verbose →
  ∃ results st',
    check_all self env st = (Return results, st) ∧
    run_once self env verbose st = (Return results, st') ∧
    ∀ s, counter st' s = count_through (named s results) (counter st s).
Proof.
  intros Hrenders.
  destruct (check_all_run self env st) as (results & Hall & _).
  destruct (for_each_allowed self env results results 0%nat st)
    as (st' & evs & Hloop & _ & _ & Hcnt & _); [done|].
  exists results, st'. split; [done|]. split; [|done].
  by apply run_once_loop.
Qed.

(** X9: after a cycle whose table renders if it is to be printed, the
    names that have a counter are those that had one before and those of
    the configured services, no other. *)
Theorem run_once_counter_keys (self : DeployWatcher) (env : CycleEnv)
    (verbose : bool) (st : Store) :
  renders self env verbose →
  ∃ results st',
    run_once self env verbose st = (Return results, st') ∧
    dom (failure_counts st') =
      dom (failure_counts st) ∪ list_to_set (name <$> services self).
Proof.
  intros Hrenders.
  destruct (check_all_run self env st) as (results & Hall & _).
  destruct (for_each_allowed self env results results 0%nat st)
    as (st' & evs & Hloop & _ & _ & _ & Hdom); [done|].
  exists results, st'. split; [by apply run_once_loop|].
  by rewrite Hdom, (check_all_names self env st results).
Qed.

(** X10: a cycle whose table renders if it is to be printed calls
    [notify] only for a result of the cycle that is [DOWN] and hands it
    all the results of the cycle, posts only to a configured sink, and
    launches only the configured command of an enabled engine. *)
Theorem run_once_only_allowed (self : DeployWatcher) (env : CycleEnv)
    (verbose : bool) (st : Store) :
  renders self env verbose →
  ∃ results st' evs,
    run_once self env verbose st = (Return results, st') ∧
    log st' = log st ++ evs ∧
    Forall (allowed self results) evs.
Proof.
  intros Hrenders.
  destruct (check_all_run self env st) as (results & Hall & _).
  destruct (for_each_allowed self env results results 0%nat st)
    as (st' & evs & Hloop & Hlog & Hevs & _); [done|].
  exists results, st', evs. split; [by apply run_once_loop|done].
Qed.

(** X11: in a cycle over services with distinct names, whose table
    renders if it is to be printed, the calls come in the order of the
    results: for each result that escalates, [notify] with all the
    results of the cycle, then [execute]; nothing for the others. *)
Theorem run_once_call_order (self : DeployWatcher) (env : CycleEnv)
    (verbose : bool) (st : Store) :
  NoDup (name <$> services self) →
  renders self env verbose →
  ∃ results st' evs,
    run_once self env verbose st = (Return results, st') ∧
    log st' = log st ++ evs ∧
    calls_only evs = results ≫= calls_for self results st.
Proof.
  intros Hnd Hrenders.
  destruct (check_all_run self env st) as (results & Hall & _).
  assert (NoDup (service_name <$> results)) as Hnd'
    by (by rewrite (check_all_names self env st)).
  destruct (for_each_calls self env results results 0%nat st Hnd')
    as (st' & evs & Hloop & Hlog & Hcalls).
  exists results, st', evs. split; [by apply run_once_loop|done].
Qed.

(** X12: when the table of a cycle renders if it is to be printed, its
    waits do not raise and its clock readings lie within one cooldown,
    the cycle launches the rollback command at most once, however many
    services escalate. *)
Theorem run_once_single_rollback (self : DeployWatcher) (env : CycleEnv)
    (verbose : bool) (st : Store) :
  renders self env verbose →
  waits_return (rollback self) env →
  within_cooldown (rollback self) env →
  ∃ results st' evs,
    run_once self env verbose st = (Return results, st') ∧
    log st' = log st ++ evs ∧
    (spawn_count evs ≤ 1)%nat.
Proof.
  intros Hrenders Hwaits Hwithin.
  destruct (check_all_run self env st) as (results & Hall & _).
  destruct (for_each_spawns self env results Hwaits Hwithin results 0%nat st)
    as (st' & evs & Hloop & Hlog & Hevs).
  exists results, st', evs. split; [by apply run_once_loop|done].
Qed.

(** X13: with no service configured a cycle returns no result and leaves the
    store as it was, and [main] with [--once] exits with code 0. *)
Theorem run_once_no_services (self : DeployWatcher) (env : CycleEnv)
    (verbose : bool) (st : Store) :
  services self = [] →
  run_once self env verbose st = (Return [], st) ∧
  main true self env verbose true false st = (Return (SysExit 0), st).
Proof.
  intros Hnone.
  assert (check_all self env st = (Return [], st)) as Hall.
  { destruct (check_all_run self env st) as (results & Hall & _).
    apply (check_all_length self env st) in Hall as Hlen.
    rewrite Hnone in Hlen. by destruct results. }
  assert (∀ v, renders self env v) as Hrenders.
  { intros v _. by rewrite <- (check_all_is_probed self env st [] Hall). }
  assert (∀ v, run_once self env v st = (Return [], st)) as Hrun
    by (intros v; by apply run_once_loop).
  split; [done|]. unfold main. simpl. unfold bind. by rewrite Hrun.
Qed.

Lemma Forall_lookup_results {A B} (P : B → Prop) (Q : nat → A → Prop)
    (l : list A) (k : list B) :
  length k = length l →
  (∀ i a, l !! i = Some a → ∃ b, k !! i = Some b ∧ (P b ↔ Q i a)) →
  Forall P k ↔ ∀ i a, l !! i = Some a → Q i a.
Proof.
  intros Hlen Hrel. rewrite Forall_lookup. split.
  - intros Hk i a Ha. destruct (Hrel i a Ha) as (b & Hb & <-). eauto.
  - intros Hl i b Hb.
    destruct (lookup_lt_is_Some_2 l i) as [a Ha].
    { rewrite <- Hlen. by eapply lookup_lt_Some. }
    destruct (Hrel i a Ha) as (b' & Hb' & Hiff).
    assert (b' = b) as -> by congruence. apply Hiff. by eapply Hl.
Qed.

(** X14: when the table of the cycle renders, [main] with [--once] exits
    with code 0 exactly when every configured service answered its probe
    with the expected status code and, where an expected body is
    configured, with a text that holds it; it exits with code 1
    otherwise. *)
Theorem main_once_exit_zero_iff (watcher : DeployWatcher) (env : CycleEnv)
    (verbose : bool) (st : Store) :
  renders watcher env true →
  ∃ code st',
    main true watcher env verbose true false st = (Return (SysExit code), st') ∧
    (code = 0 ∨ code = 1) ∧
    (code = 0 ↔
     ∀ i svc, services watcher !! i = Some svc →
       healthy_reply (probe env i) svc = true).
Proof.
  intros Hrenders.
  destruct (run_once_returns watcher env true st Hrenders)
    as (results & st' & Hall & Hrun).
  assert (Forall (λ r, status r = HEALTHY) results ↔
          ∀ i svc, services watcher !! i = Some svc →
            healthy_reply (probe env i) svc = true) as Hiff.
  { apply Forall_lookup_results.
    - by eapply check_all_length.
    - intros i svc Hsvc.
      destruct (check_all_lookup watcher env st results i svc Hall Hsvc)
        as (r & Hr & Hcheck & _).
      exists r. split; [done|].
      by destruct (check_status (probe env i) svc r st Hcheck) as [? _]. }
  exists (match filter (λ r, status r ≠ HEALTHY) results with
          | [] => 0 | _ => 1 end), st'.
  split; [|split].
  - unfold main. simpl. unfold bind. by rewrite Hrun.
  - destruct (filter _ results); auto.
  - rewrite <- Hiff, <- failed_nil. by destruct (filter _ results).
Qed.

(** X23: a cycle whose table is printed and fails to render raises the
    error of the console and leaves the store as it was: no counter is
    updated and nothing is escalated.  [main] with [--once] then lets the
    error escape instead of calling [sys.exit], and the loop of [run]
    ends in that cycle. *)
Theorem run_once_render_failure (self : DeployWatcher) (env : CycleEnv)
    (st : Store) (e : exn) :
  console_print env (add_row <$> probed self env) = Raise e →
  run_once self env true st = (Raise e, st) ∧
  (∀ verbose, main true self env verbose true false st = (Raise e, st)) ∧
  ∀ world n, world 0%nat = env →
    run_cycles self world true 0 (S n) st = (Raise e, st).
Proof.
  intros Hprint. split; [by apply run_once_raises|].
  split; [intros verbose; by apply main_once_raises|].
  intros world n Hworld. cbn [run_cycles]. unfold bind.
  by rewrite Hworld, (run_once_raises self env st e Hprint).
Qed.

(** ** Consecutive cycles *)

Lemma run_once_facts self env verbose st results st' :
  run_once self env verbose st = (Return results, st') →
  ∃ evs,
    check_all self env st = (Return results, st) ∧
    log st' = log st ++ evs ∧
    Forall (allowed self results) evs ∧
    (∀ s, counter st' s = count_through (named s results) (counter st s)) ∧
    dom (failure_counts st') =
      dom (failure_counts st) ∪ list_to_set (name <$> services self).
Proof.
  intros (Hall & _ & Hloop)%run_once_inv.
  destruct (for_each_allowed self env results results 0%nat st)
    as (st1 & evs & Hloop1 & Hlog & Hevs & Hcnt & Hdom); [done|].
  rewrite Hloop in Hloop1. injection Hloop1 as <-.
  exists evs. split; [done|]. split; [done|]. split; [done|].
  split; [done|]. by rewrite Hdom, (check_all_names self env st results).
Qed.

Lemma count_through_nonneg l c : 0 ≤ c → 0 ≤ count_through l c.
Proof.
  revert c. induction l as [|r l IH]; intros c Hc; [done|].
  apply IH. unfold next_count. case_bool_decide; lia.
Qed.

Lemma result_for_is_Some s l :
  s ∈ service_name <$> l → is_Some (result_for s l).
Proof.
  induction l as [|r l IH]; [by intros ?%elem_of_nil|].
  rewrite fmap_cons, elem_of_cons. simpl. case_bool_decide; [by eauto|].
  intros [?|?]; [done|auto].
Qed.

Section Streaks.
Variable self : DeployWatcher.
Variable world : nat → CycleEnv.
Variable verbose : bool.
Variable st0 : Store.

Lemma cycle_step k :
  ran self world verbose st0 (S k) →
  ∃ evs,
    check_all self (world k) (store_after self world verbose st0 k) =
      (Return (cycle_results self world verbose st0 k),
       store_after self world verbose st0 k) ∧
    log (store_after self world verbose st0 (S k)) =
      log (store_after self world verbose st0 k) ++ evs ∧
    Forall (allowed self (cycle_results self world verbose st0 k)) evs ∧
    ∀ s, counter (store_after self world verbose st0 (S k)) s =
           count_through (named s (cycle_results self world verbose st0 k))
             (counter (store_after self world verbose st0 k) s).
Proof.
  intros (_ & results & Hrun)%ran_inv.
  destruct (run_once_facts self (world k) verbose _ _ _ Hrun)
    as (evs & Hall & Hlog & Hevs & Hcnt & _).
  exists evs. unfold cycle_results. rewrite Hrun. done.
Qed.

Lemma cycle_names k :
  ran self world verbose st0 (S k) →
  service_name <$> cycle_results self world verbose st0 k =
    name <$> services self.
Proof.
  intros Hran. destruct (cycle_step k Hran) as (evs & Hall & _).
  by eapply check_all_names.
Qed.

(** From counters that are not negative, no number of cycles makes one
    negative. *)
Lemma counters_nonneg n :
  (∀ s, 0 ≤ counter st0 s) →
  ∀ s, 0 ≤ counter (store_after self world verbose st0 n) s.
Proof.
  intros H0. induction n as [|n IH]; intros s; [apply H0|].
  destruct (ran_or_raised self world verbose st0 (S n)) as [Hran|[e Hraise]].
  - destruct (cycle_step n Hran) as (evs & _ & _ & _ & ->).
    by apply count_through_nonneg.
  - rewrite (stuck self world verbose st0 n e Hraise). apply IH.
Qed.

Lemma cycles_allowed n :
  ∃ evs,
    log (store_after self world verbose st0 n) = log st0 ++ evs ∧
    Forall (λ ev, ∃ k, (k < n)%nat ∧
                       allowed self (cycle_results self world verbose st0 k) ev)
      evs.
Proof.
  induction n as [|n (evs & Hlog & Hevs)].
  - exists []. split; [by rewrite app_nil_r|done].
  - destruct (ran_or_raised self world verbose st0 (S n)) as [Hran|[e Hraise]].
    + destruct (cycle_step n Hran) as (evs' & _ & Hlog' & Hevs' & _).
      exists (evs ++ evs'). split; [by rewrite Hlog', Hlog, app_assoc|].
      apply Forall_app. split.
      * eapply Forall_impl; [done|]. intros ev (k & Hk & Hev).
        exists k. split; [lia|done].
      * eapply Forall_impl; [done|]. intros ev Hev.
        exists n. split; [lia|done].
    + exists evs. rewrite (stuck self world verbose st0 n e Hraise).
      split; [done|].
      eapply Forall_impl; [done|]. intros ev (k & Hk & Hev).
      exists k. split; [lia|done].
Qed.

Hypothesis Hnames : NoDup (name <$> services self).
Variable s : string.
Hypothesis Hin : s ∈ name <$> services self.
Hypothesis Hzero : counter st0 s = 0.

Lemma streak k :
  ran self world verbose st0 k →
  0 ≤ counter (store_after self world verbose st0 k) s ≤ Z.of_nat k ∧
  ∀ j, (j < k)%nat →
       Z.of_nat k - Z.of_nat j
         ≤ counter (store_after self world verbose st0 k) s →
       down_in_cycle self world verbose st0 s j.
Proof.
  induction k as [|k IH]; intros Hran.
  { change (store_after self world verbose st0 0) with st0.
    rewrite Hzero. split; [lia|]. intros j Hj. lia. }
  destruct (ran_inv self world verbose st0 k Hran) as (Hran' & _).
  destruct (IH Hran') as (Hc & Hdowns).
  destruct (cycle_run self world verbose st0 Hnames k Hran)
    as (evs & _ & _ & _ & Heff).
  specialize (Heff s). unfold cycle_effect in Heff.
  fold (counter (store_after self world verbose st0 k) s) in Heff.
  destruct (result_for_is_Some s (cycle_results self world verbose st0 k))
    as [r Hr]; [by rewrite cycle_names|].
  rewrite Hr in Heff. destruct Heff as (Hfc & _).
  unfold counter at 1 2 3. rewrite Hfc. simpl.
  apply result_for_Some in Hr as [Hr Hname].
  unfold next_count. case_bool_decide as Hd.
  - split; [lia|]. intros j Hj Hgap.
    destruct (decide (j = k)) as [->|Hne]; [by exists r|].
    apply Hdowns; lia.
  - split; [lia|]. intros j Hj Hgap. lia.
Qed.
End Streaks.

(** X15: over services with distinct names and from a counter at zero, a
    call of [notify] for service [s] in cycle [k] means that [s] was
    [DOWN] in that cycle and in the cycles before it, [threshold] cycles
    in a row. *)
Theorem alert_needs_consecutive_downs (self : DeployWatcher)
    (world : nat → CycleEnv) (verbose : bool) (st0 : Store)
    (s : string) (k : nat) :
  NoDup (name <$> services self) →
  counter st0 s = 0 →
  notify_calls s (cycle_events self world verbose st0 k) ≠ 0%nat →
  threshold self ≤ Z.of_nat (S k) ∧
  ∀ j, (j ≤ k)%nat → Z.of_nat k - Z.of_nat j < threshold self →
       down_in_cycle self world verbose st0 s j.
Proof.
  intros Hnames Hzero Hcalls.
  destruct (ran_or_raised self world verbose st0 (S k)) as [Hran|[e Hraise]];
    [|by rewrite (stuck_events self world verbose st0 k e Hraise) in Hcalls].
  destruct (ran_inv self world verbose st0 k Hran) as (Hran' & _).
  destruct (cycle_run self world verbose st0 Hnames k Hran)
    as (evs & _ & _ & Hevs & Heff).
  specialize (Heff s). unfold cycle_effect in Heff.
  fold (counter (store_after self world verbose st0 k) s) in Heff.
  rewrite Hevs in Hcalls.
  destruct (result_for s (cycle_results self world verbose st0 k))
    as [r|] eqn:Hr; [|by destruct Heff as (_ & ? & _)].
  destruct Heff as (_ & Hn & _). rewrite Hn in Hcalls.
  destruct (escalates self r _) eqn:Hesc; [|done].
  apply andb_true_iff in Hesc
    as [Hdown%bool_decide_eq_true Hth%bool_decide_eq_true].
  apply result_for_Some in Hr as [Hr Hname].
  assert (s ∈ name <$> services self) as Hin.
  { rewrite <- (cycle_names self world verbose st0 k Hran), <- Hname.
    by apply list_elem_of_fmap_2. }
  destruct (streak self world verbose st0 Hnames s Hin Hzero k Hran')
    as (Hc & Hdowns).
  split; [lia|]. intros j Hj Hgap.
  destruct (decide (j = k)) as [->|Hne]; [by exists r|].
  apply Hdowns; lia.
Qed.

(** X16: counters that are not negative stay so through any number of
    cycles, whatever the names of the services. *)
Theorem counters_never_negative (self : DeployWatcher)
    (world : nat → CycleEnv) (verbose : bool) (st0 : Store) (n : nat) :
  (∀ s, 0 ≤ counter st0 s) →
  ∀ s, 0 ≤ counter (store_after self world verbose st0 n) s.
Proof. apply counters_nonneg. Qed.

(** ** The configuration *)

Lemma parse_services_loop_spec entries acc st :
  match _parse_services_loop entries acc st with
  | (Return svcs, st') =>
      st' = st ∧ ∃ new, svcs = acc ++ new ∧ Forall2 parsed_from entries new
  | (Raise e, st') => st' = st ∧ ∃ i, first_incomplete entries i e
  end.
Proof.
  revert acc. induction entries as [|entry rest IH]; intros acc.
  - simpl. split; [done|]. exists []. by rewrite app_nil_r.
  - cbn [_parse_services_loop]. unfold bind at 1.
    destruct (svc_name entry) as [nm|] eqn:Hname; simpl.
    2:{ split; [done|]. exists 0%nat, entry. split; [done|].
        split; [intros j prior Hj; lia|]. by left. }
    unfold bind at 1.
    destruct (svc_url entry) as [u|] eqn:Hurl; simpl.
    2:{ split; [done|]. exists 0%nat, entry. split; [done|].
        split; [intros j prior Hj; lia|]. right. by rewrite Hname. }
    specialize (IH (acc ++ [mkServiceConfig nm u
                              (default "GET" (svc_method entry))
                              (default 200 (svc_expected_status entry))
                              (svc_expected_body entry)
                              (default [] (svc_headers entry))])).
    destruct (_parse_services_loop rest _ st) as [[svcs|e] st'].
    + destruct IH as (-> & new & -> & Hnew). split; [done|].
      eexists (_ :: new). split; [by rewrite <- app_assoc|].
      constructor; [|done]. by repeat split.
    + destruct IH as (-> & i & entry' & Hi & Hprior & Hwhy).
      split; [done|]. exists (S i), entry'. split; [done|]. split; [|done].
      intros [|j] prior Hj Hp.
      * injection Hp as <-. rewrite Hname, Hurl. by eauto.
      * apply (Hprior j); [lia|done].
Qed.

(** X17: [_parse_services] reads the services in the order of the file, one
    per entry, with [GET], 200, no expected body and no headers where the
    entry is silent; it raises the [KeyError] of the first entry that lacks
    a name or a url, the name being looked up first.  With no [services]
    key it returns the empty list. *)
Theorem parse_services_spec (config : ConfigMapping) (st : Store) :
  match _parse_services config st with
  | (Return svcs, st') =>
      st' = st ∧ Forall2 parsed_from (default [] (cfg_services config)) svcs
  | (Raise e, st') =>
      st' = st ∧ ∃ i, first_incomplete (default [] (cfg_services config)) i e
  end.
Proof.
  unfold _parse_services.
  pose proof (parse_services_loop_spec (default [] (cfg_services config)) [] st)
    as Hspec.
  destruct (_parse_services_loop _ _ st) as [[svcs|e] st']; [|done].
  by destruct Hspec as (-> & new & -> & Hnew).
Qed.

Lemma init_run config st0 w st :
  DeployWatcher__init__ config st0 = (Return w, st) →
  st = mkStore ∅ None (log st0) ∧
  notifier w =
    Notifier__init__
      (default (mkNotificationsMapping None None) (cfg_notifications config)) ∧
  enabled (rollback w) =
    default false
      (rb_enabled (default (mkRollbackMapping None None None)
                     (cfg_rollback config))) ∧
  command (rollback w) =
    default ""
      (rb_command (default (mkRollbackMapping None None None)
                     (cfg_rollback config))) ∧
  threshold w =
    default 3 (g_failure_threshold
                 (default (mkGlobalMapping None None None)
                    (cfg_global config))).
Proof.
  unfold DeployWatcher__init__. unfold bind at 1.
  pose proof (parse_services_spec config st0) as Hspec.
  destruct (_parse_services config st0) as [[svcs|e] st1]; [|done].
  destruct Hspec as [-> _].
  unfold RollbackEngine__init__, bind, modify, ret. simpl.
  by intros [= <- <-].
Qed.

(** X18: a watcher built from a configuration whose rollback section is
    missing, or lacks [enabled] or [command], or has them false or empty,
    launches no command in any number of cycles. *)
Theorem config_without_rollback_never_spawns (config : ConfigMapping)
    (st0 st : Store) (w : DeployWatcher) (world : nat → CycleEnv)
    (verbose : bool) (n : nat) :
  DeployWatcher__init__ config st0 = (Return w, st) →
  rollback_off config →
  ∃ evs, log (store_after w world verbose st n) = log st ++ evs ∧
         ∀ cmd, Spawn cmd ∉ evs.
Proof.
  intros Hinit Hoff.
  destruct (init_run config st0 w st Hinit) as (_ & _ & Hen & Hcmd & _).
  assert (enabled (rollback w) = false ∨
          str_truthy (command (rollback w)) = false) as Hblocked.
  { rewrite Hen, Hcmd. unfold rollback_off in Hoff.
    destruct (cfg_rollback config) as [rb|]; [|by left].
    simpl. destruct Hoff as [-> | [-> | [-> | -> ]]]; auto. }
  destruct (cycles_allowed w world verbose st n) as (evs & Hlog & Hevs).
  exists evs. split; [done|]. intros cmd Hin.
  rewrite Forall_forall in Hevs.
  destruct (Hevs _ Hin) as (k & _ & -> & Hen' & Hcmd').
  destruct Hblocked; congruence.
Qed.

(** X19: a watcher built from a configuration that gives no url to any sink
    posts nothing in any number of cycles. *)
Theorem config_without_sinks_never_posts (config : ConfigMapping)
    (st0 st : Store) (w : DeployWatcher) (world : nat → CycleEnv)
    (verbose : bool) (n : nat) :
  DeployWatcher__init__ config st0 = (Return w, st) →
  notifications_off config →
  ∃ evs, log (store_after w world verbose st n) = log st ++ evs ∧
         ∀ sink m rs, Post sink m rs ∉ evs.
Proof.
  intros Hinit Hoff.
  destruct (init_run config st0 w st Hinit) as (_ & Hnot & _).
  assert (str_truthy (slack_url (notifier w)) = false ∧
          str_truthy (webhook_url (notifier w)) = false) as [Hs Hw].
  { rewrite Hnot. unfold notifications_off, Notifier__init__ in *.
    destruct (cfg_notifications config) as [nt|]; [|done].
    simpl. destruct Hoff as [[-> | [-> | -> ]] [-> | [-> | -> ]]]; done. }
  destruct (cycles_allowed w world verbose st n) as (evs & Hlog & Hevs).
  exists evs. split; [done|]. intros sink m rs Hin.
  rewrite Forall_forall in Hevs.
  destruct (Hevs _ Hin) as (k & _ & _ & Htruthy & [->| ->]); congruence.
Qed.

(** X20: a watcher just built has no counters, so over services with
    distinct names a service that is [DOWN] in every cycle from the first
    is escalated, once per cycle, from the cycle whose number is the
    configured threshold, 3 when the configuration names none. *)
Theorem new_watcher_escalates_at_threshold (config : ConfigMapping)
    (st0 st : Store) (w : DeployWatcher) (world : nat → CycleEnv)
    (verbose : bool) (s : string) (n : nat) :
  DeployWatcher__init__ config st0 = (Return w, st) →
  NoDup (name <$> services w) →
  (∀ k, (k < n)%nat → down_in_cycle w world verbose st s k) →
  ∀ k, (k < n)%nat →
    notify_calls s (cycle_events w world verbose st k) =
      (if bool_decide
            (default 3 (g_failure_threshold
                          (default (mkGlobalMapping None None None)
                             (cfg_global config))) ≤ Z.of_nat (S k))
       then 1%nat else 0%nat) ∧
    remediation_attempts s (cycle_events w world verbose st k) =
      notify_calls s (cycle_events w world verbose st k).
Proof.
  intros Hinit Hnames Hdown k Hk.
  destruct (init_run config st0 w st Hinit) as (-> & _ & _ & _ & Hth).
  set (st := mkStore ∅ None (log st0)) in *.
  assert (default 0 (failure_counts st !! s) = 0) as Hzero
    by (subst st; simpl; by rewrite lookup_empty).
  destruct (escalations_in_cycle w world verbose st Hnames s n Hzero Hdown k Hk)
    as [Hn Hx].
  rewrite Hx, Hn, Hth. done.
Qed.

(** ** Concrete runs *)

Lemma execute_disabled_witness :
  (enabled (mkRollbackEngine false "./rollback.sh" 300) = false ∨
   str_truthy (command (mkRollbackEngine false "./rollback.sh" 300)) = false) ∧
  execute (mkRollbackEngine false "./rollback.sh" 300) (shell_exits 0 1000)
    fresh = (Return false, fresh).
Proof.
  assert (enabled (mkRollbackEngine false "./rollback.sh" 300) = false ∨
          str_truthy (command (mkRollbackEngine false "./rollback.sh" 300))
            = false) as Hoff by (left; reflexivity).
  split; [exact Hoff|].
  exact (execute_disabled _ (shell_exits 0 1000) fresh Hoff).
Defined.

Lemma execute_after_cooldown_witness :
  cooldown engine ≤ time_check (shell_exits 0 1400) - 1001 ∧
  execute engine (shell_exits 0 1400) (mkStore ∅ (Some 1001) []) =
    (Return (bool_decide (returncode (mkProcess (Return ("", "")) 0) = 0)),
     add_log [Spawn (command engine)]
       (set_last_rollback (Some (time_done (shell_exits 0 1400)))
          (mkStore ∅ (Some 1001) []))).
Proof.
  assert (cooldown engine ≤ time_check (shell_exits 0 1400) - 1001) as Hgap
    by (vm_compute; discriminate).
  split; [exact Hgap|].
  exact (execute_after_cooldown engine (shell_exits 0 1400)
           (mkStore ∅ (Some 1001) []) 1001 (mkProcess (Return ("", "")) 0)
           ("", "") eq_refl eq_refl eq_refl Hgap eq_refl eq_refl).
Defined.

Lemma api_watcher_names : NoDup (name <$> services api_watcher).
Proof. apply NoDup_singleton. Defined.

Lemma hasty_watcher_names : NoDup (name <$> services hasty_watcher).
Proof. apply (bool_decide_unpack _). vm_compute. exact I. Defined.

Lemma hasty_watcher_renders : renders hasty_watcher (always_down 0) true.
Proof. intros _. vm_compute. reflexivity. Defined.

Lemma run_once_escalation_rule_witness :
  NoDup (name <$> services hasty_watcher) ∧
  renders hasty_watcher (always_down 0) true ∧
  ∃ results st' evs,
    run_once hasty_watcher (always_down 0) true fresh = (Return results, st') ∧
    log st' = log fresh ++ evs ∧
    ∀ r, r ∈ results →
      notify_calls (service_name r) evs =
        (if bool_decide (status r = DOWN ∧
                         threshold hasty_watcher
                           ≤ counter fresh (service_name r) + 1)
         then 1%nat else 0%nat) ∧
      remediation_attempts (service_name r) evs =
        notify_calls (service_name r) evs.
Proof.
  split; [exact hasty_watcher_names|]. split; [exact hasty_watcher_renders|].
  exact (run_once_escalation_rule hasty_watcher (always_down 0) true fresh
           hasty_watcher_names hasty_watcher_renders).
Defined.

Lemma run_once_counts_by_name_witness :
  renders hasty_watcher (always_down 0) true ∧
  ∃ results st',
    check_all hasty_watcher (always_down 0) fresh = (Return results, fresh) ∧
    run_once hasty_watcher (always_down 0) true fresh = (Return results, st') ∧
    ∀ s, counter st' s = count_through (named s results) (counter fresh s).
Proof.
  split; [exact hasty_watcher_renders|].
  exact (run_once_counts_by_name hasty_watcher (always_down 0) true fresh
           hasty_watcher_renders).
Defined.

Lemma run_once_counter_keys_witness :
  renders hasty_watcher (always_down 0) true ∧
  ∃ results st',
    run_once hasty_watcher (always_down 0) true fresh = (Return results, st') ∧
    dom (failure_counts st') =
      dom (failure_counts fresh) ∪ list_to_set (name <$> services hasty_watcher).
Proof.
  split; [exact hasty_watcher_renders|].
  exact (run_once_counter_keys hasty_watcher (always_down 0) true fresh
           hasty_watcher_renders).
Defined.

Lemma run_once_only_allowed_witness :
  renders hasty_watcher (always_down 0) true ∧
  ∃ results st' evs,
    run_once hasty_watcher (always_down 0) true fresh = (Return results, st') ∧
    log st' = log fresh ++ evs ∧
    Forall (allowed hasty_watcher results) evs.
Proof.
  split; [exact hasty_watcher_renders|].
  exact (run_once_only_allowed hasty_watcher (always_down 0) true fresh
           hasty_watcher_renders).
Defined.

Lemma run_once_call_order_witness :
  NoDup (name <$> services hasty_watcher) ∧
  renders hasty_watcher (always_down 0) true ∧
  ∃ results st' evs,
    run_once hasty_watcher (always_down 0) true fresh = (Return results, st') ∧
    log st' = log fresh ++ evs ∧
    calls_only evs = results ≫= calls_for hasty_watcher results fresh.
Proof.
  split; [exact hasty_watcher_names|]. split; [exact hasty_watcher_renders|].
  exact (run_once_call_order hasty_watcher (always_down 0) true fresh
           hasty_watcher_names hasty_watcher_renders).
Defined.

Lemma always_down_waits : waits_return (rollback hasty_watcher) (always_down 0).
Proof. intros i proc [= <-]. by exists ("", ""). Defined.

Lemma always_down_within :
  within_cooldown (rollback hasty_watcher) (always_down 0).
Proof. intros i j. split; vm_compute; congruence. Defined.

Lemma run_once_single_rollback_witness :
  renders hasty_watcher (always_down 0) true ∧
  waits_return (rollback hasty_watcher) (always_down 0) ∧
  within_cooldown (rollback hasty_watcher) (always_down 0) ∧
  ∃ results st' evs,
    run_once hasty_watcher (always_down 0) true fresh = (Return results, st') ∧
    log st' = log fresh ++ evs ∧
    (spawn_count evs ≤ 1)%nat.
Proof.
  split; [exact hasty_watcher_renders|].
  split; [exact always_down_waits|]. split; [exact always_down_within|].
  exact (run_once_single_rollback hasty_watcher (always_down 0) true fresh
           hasty_watcher_renders always_down_waits always_down_within).
Defined.

Example hasty_cycle :
  calls_only (log (snd (run_once hasty_watcher (always_down 0) false fresh))) =
    [ CallNotify "Service DOWN: api"
        [mkCheckResult "api" DOWN 5000 None (Some "Timeout") 0;
         mkCheckResult "db" DOWN 5000 None (Some "Timeout") 0];
      CallExecute;
      CallNotify "Service DOWN: db"
        [mkCheckResult "api" DOWN 5000 None (Some "Timeout") 0;
         mkCheckResult "db" DOWN 5000 None (Some "Timeout") 0];
      CallExecute ] ∧
  spawn_count (log (snd (run_once hasty_watcher (always_down 0) false fresh)))
    = 1%nat.
Proof. vm_compute. split; reflexivity. Qed.

Lemma run_once_no_services_witness :
  services (mkDeployWatcher [] both_sinks engine 3) = [] ∧
  run_once (mkDeployWatcher [] both_sinks engine 3) (always_down 0) false fresh
    = (Return [], fresh) ∧
  main true (mkDeployWatcher [] both_sinks engine 3) (always_down 0) false
    true false fresh = (Return (SysExit 0), fresh).
Proof.
  split; [reflexivity|].
  exact (run_once_no_services (mkDeployWatcher [] both_sinks engine 3)
           (always_down 0) false fresh eq_refl).
Defined.

Lemma alert_needs_consecutive_downs_witness :
  NoDup (name <$> services api_watcher) ∧
  counter fresh "api" = 0 ∧
  notify_calls "api" (cycle_events api_watcher always_down false fresh 1)
    ≠ 0%nat ∧
  threshold api_watcher ≤ Z.of_nat 2 ∧
  ∀ j, (j ≤ 1)%nat → Z.of_nat 1 - Z.of_nat j < threshold api_watcher →
       down_in_cycle api_watcher always_down false fresh "api" j.
Proof.
  assert (notify_calls "api"
            (cycle_events api_watcher always_down false fresh 1) ≠ 0%nat)
    as Hcalls by (vm_compute; discriminate).
  split; [exact api_watcher_names|]. split; [reflexivity|].
  split; [exact Hcalls|].
  exact (alert_needs_consecutive_downs api_watcher always_down false fresh
           "api" 1 api_watcher_names eq_refl Hcalls).
Defined.

Lemma fresh_counters : ∀ s, 0 ≤ counter fresh s.
Proof. intros s. unfold counter, fresh. simpl. by rewrite lookup_empty. Defined.

Lemma counters_never_negative_witness :
  (∀ s, 0 ≤ counter fresh s) ∧
  ∀ s, 0 ≤ counter (store_after api_watcher down_down_up false fresh 3) s.
Proof.
  split; [exact fresh_counters|].
  exact (counters_never_negative api_watcher down_down_up false fresh 3
           fresh_counters).
Defined.

Lemma bare_config_init :
  DeployWatcher__init__ bare_config fresh = (Return bare_watcher, fresh).
Proof. reflexivity. Defined.

Lemma config_without_rollback_never_spawns_witness :
  DeployWatcher__init__ bare_config fresh = (Return bare_watcher, fresh) ∧
  rollback_off bare_config ∧
  ∃ evs, log (store_after bare_watcher always_down false fresh 4)
           = log fresh ++ evs ∧
         ∀ cmd, Spawn cmd ∉ evs.
Proof.
  split; [exact bare_config_init|]. split; [exact I|].
  exact (config_without_rollback_never_spawns bare_config fresh fresh
           bare_watcher always_down false 4 bare_config_init I).
Defined.

Lemma config_without_sinks_never_posts_witness :
  DeployWatcher__init__ bare_config fresh = (Return bare_watcher, fresh) ∧
  notifications_off bare_config ∧
  ∃ evs, log (store_after bare_watcher always_down false fresh 4)
           = log fresh ++ evs ∧
         ∀ sink m rs, Post sink m rs ∉ evs.
Proof.
  split; [exact bare_config_init|]. split; [exact I|].
  exact (config_without_sinks_never_posts bare_config fresh fresh
           bare_watcher always_down false 4 bare_config_init I).
Defined.

Lemma bare_watcher_down :
  ∀ k, (k < 4)%nat → down_in_cycle bare_watcher always_down false fresh "api" k.
Proof.
  intros k Hk.
  exists (mkCheckResult "api" DOWN 5000 None (Some "Timeout") 0).
  destruct k as [|[|[|[|k]]]]; [| | | |lia];
    (split; [vm_compute; left|split; reflexivity]).
Defined.

Lemma new_watcher_escalates_at_threshold_witness :
  DeployWatcher__init__ bare_config fresh = (Return bare_watcher, fresh) ∧
  NoDup (name <$> services bare_watcher) ∧
  (∀ k, (k < 4)%nat →
     down_in_cycle bare_watcher always_down false fresh "api" k) ∧
  ∀ k, (k < 4)%nat →
    notify_calls "api" (cycle_events bare_watcher always_down false fresh k) =
      (if bool_decide
            (default 3 (g_failure_threshold
                          (default (mkGlobalMapping None None None)
                             (cfg_global bare_config))) ≤ Z.of_nat (S k))
       then 1%nat else 0%nat) ∧
    remediation_attempts "api"
      (cycle_events bare_watcher always_down false fresh k) =
      notify_calls "api" (cycle_events bare_watcher always_down false fresh k).
Proof.
  split; [exact bare_config_init|].
  split; [apply NoDup_singleton|]. split; [exact bare_watcher_down|].
  exact (new_watcher_escalates_at_threshold bare_config fresh fresh
           bare_watcher always_down false "api" 4 bare_config_init
           (NoDup_singleton _) bare_watcher_down).
Defined.

(** Both services answer as expected and the table renders. *)
Lemma db_first_renders : renders two_services db_first true.
Proof. intros _. vm_compute. reflexivity. Defined.

Lemma main_once_exit_zero_iff_witness :
  renders two_services db_first true ∧
  ∃ code st',
    main true two_services db_first false true false fresh =
      (Return (SysExit code), st') ∧
    (code = 0 ∨ code = 1) ∧
    (code = 0 ↔
     ∀ i svc, services two_services !! i = Some svc →
       healthy_reply (probe db_first i) svc = true).
Proof.
  split; [exact db_first_renders|].
  exact (main_once_exit_zero_iff two_services db_first false fresh
           db_first_renders).
Defined.

Lemma tagged_fails_to_render :
  console_print all_answering (add_row <$> probed tagged_watcher all_answering) =
    Raise (OtherException
             "closing tag '[/x]' at position 0 doesn't match any open tag").
Proof. vm_compute. reflexivity. Defined.

Lemma run_once_render_failure_witness :
  console_print all_answering (add_row <$> probed tagged_watcher all_answering) =
    Raise (OtherException
             "closing tag '[/x]' at position 0 doesn't match any open tag") ∧
  run_once tagged_watcher all_answering true fresh =
    (Raise (OtherException
              "closing tag '[/x]' at position 0 doesn't match any open tag"),
     fresh) ∧
  (∀ verbose, main true tagged_watcher all_answering verbose true false fresh =
     (Raise (OtherException
               "closing tag '[/x]' at position 0 doesn't match any open tag"),
      fresh)) ∧
  ∀ world n, world 0%nat = all_answering →
    run_cycles tagged_watcher world true 0 (S n) fresh =
      (Raise (OtherException
                "closing tag '[/x]' at position 0 doesn't match any open tag"),
       fresh).
Proof.
  split; [exact tagged_fails_to_render|].
  exact (run_once_render_failure tagged_watcher all_answering fresh _
           tagged_fails_to_render).
Defined.
